(** * Service registry with per-service circuit breakers

    Shallow embedding of [shared/serviceRegistry.js] (class
    [ServiceRegistry]) and the properties of its registration, lookup,
    selection and outcome-reporting operations.

    Conventions of the embedding:
    - a JavaScript number holding a count or a millisecond timestamp is a
      [Z]; [Date.now()] is an explicit argument [now];
    - [new Date().toISOString()] is kept as the millisecond value it
      renders (the rendering is injective on valid dates);
    - [this.services] is a JavaScript [Map] whose iteration order is
      observable through [values()], so it is an insertion-ordered
      association list ([JsMap]); [this.circuitBreakers] is only ever
      read, written and deleted by key, so it is a [gmap];
    - every method runs to completion between two [await] points of the
      event loop, so each one is a function on the registry state; the
      file behind [registryFile] is part of that state;
    - [null] and [undefined] results are both [None]: callers only test
      them for truthiness; a thrown [Error] is [Throw]. *)

From stdpp Require Import base option list strings gmap.
From Stdlib Require Import ZArith String Lia.

Open Scope Z_scope.

#[local] Set Warnings "-clear-no-such-hyp".

(** ** Data model *)

(** [service.status]: the two string literals the code assigns. *)
Inductive Status : Type :=
| healthy
| unhealthy.

(** [breaker.state]: ['closed'], ['open'], ['half-open']. *)
Inductive BreakerState : Type :=
| closed
| open
| half_open.

#[global] Instance Status_eq_dec : EqDecision Status.
Proof. solve_decision. Defined.

#[global] Instance BreakerState_eq_dec : EqDecision BreakerState.
Proof. solve_decision. Defined.

(** The metadata object given at registration.  A key that is absent
    ([undefined]) is [None]; the default argument [{}] is
    [emptyMetadata]. *)
Record Metadata : Type := mkMetadata {
  version : option string;
  tags : option (list string);
  endpoints : option (list string)
}.

Definition emptyMetadata : Metadata :=
  {| version := None; tags := None; endpoints := None |}.

(** The object literal built by [registerService], plus [lastError],
    which [performHealthCheck] adds on a failed probe. *)
Record ServiceEntry : Type := mkServiceEntry {
  name : string;
  url : string;
  metadata : Metadata;
  status : Status;
  registeredAt : Z;
  lastHealthCheck : Z;
  failureCount : Z;
  lastError : option string
}.

(** The object literal built by [initCircuitBreaker]. *)
Record CircuitBreaker : Type := mkCircuitBreaker {
  state : BreakerState;
  failures : Z;
  threshold : Z;
  timeout : Z;
  lastFailure : Z
}.

#[global] Instance Metadata_eq_dec : EqDecision Metadata.
Proof. solve_decision. Defined.

#[global] Instance ServiceEntry_eq_dec : EqDecision ServiceEntry.
Proof. solve_decision. Defined.

#[global] Instance CircuitBreaker_eq_dec : EqDecision CircuitBreaker.
Proof. solve_decision. Defined.

(** What a method hands back to its caller: a value or a thrown error. *)
Inductive Outcome (A : Type) : Type :=
| Return (value : A)
| Throw (message : string).

Arguments Return {A} value.
Arguments Throw {A} message.

(** ** The JavaScript [Map], in insertion order *)

Module JsMap.
Section Ops.
Context {V : Type}.

(** [map.get(k)] *)
Fixpoint get (k : string) (m : list (string * V)) : option V :=
  match m with
  | [] => None
  | (k', v) :: m' => if decide (k = k') then Some v else get k m'
  end.

(** [map.has(k)] *)
Definition has (k : string) (m : list (string * V)) : bool :=
  match get k m with
  | Some _ => true
  | None => false
  end.

(** [map.set(k, v)]: an existing key keeps its position, a new key goes
    last. *)
Fixpoint set (k : string) (v : V) (m : list (string * V))
  : list (string * V) :=
  match m with
  | [] => [(k, v)]
  | (k', v') :: m' =>
      if decide (k = k') then (k, v) :: m' else (k', v') :: set k v m'
  end.

(** [map.delete(k)] *)
Fixpoint delete (k : string) (m : list (string * V))
  : list (string * V) :=
  match m with
  | [] => []
  | (k', v') :: m' =>
      if decide (k = k') then delete k m' else (k', v') :: delete k m'
  end.

(** [Array.from(map.values())] *)
Definition values (m : list (string * V)) : list V := m.*2.

Definition keys (m : list (string * V)) : list string := m.*1.
End Ops.
End JsMap.

(** ** Registry state *)

(** The fields of a [ServiceRegistry] together with the file its
    [registryFile] path names: [snapshot] is the array last written there
    ([None] when the file cannot be read or parsed), [snapshotWrites]
    counts the completed [fs.writeFile] calls, [healthCheckTimer] tells
    whether the interval timer is armed. *)
Record ServiceRegistry : Type := mkServiceRegistry {
  services : list (string * ServiceEntry);
  circuitBreakers : gmap string CircuitBreaker;
  healthCheckTimer : bool;
  snapshot : option (list ServiceEntry);
  snapshotWrites : nat
}.

(** [new ServiceRegistry()] over a given file. *)
Definition newServiceRegistry (file : option (list ServiceEntry))
  : ServiceRegistry :=
  {| services := [];
     circuitBreakers := ∅;
     healthCheckTimer := false;
     snapshot := file;
     snapshotWrites := 0%nat |}.

Definition with_services (s : list (string * ServiceEntry))
  (r : ServiceRegistry) : ServiceRegistry :=
  {| services := s;
     circuitBreakers := circuitBreakers r;
     healthCheckTimer := healthCheckTimer r;
     snapshot := snapshot r;
     snapshotWrites := snapshotWrites r |}.

Definition with_circuitBreakers (c : gmap string CircuitBreaker)
  (r : ServiceRegistry) : ServiceRegistry :=
  {| services := services r;
     circuitBreakers := c;
     healthCheckTimer := healthCheckTimer r;
     snapshot := snapshot r;
     snapshotWrites := snapshotWrites r |}.

Definition with_healthCheckTimer (t : bool) (r : ServiceRegistry)
  : ServiceRegistry :=
  {| services := services r;
     circuitBreakers := circuitBreakers r;
     healthCheckTimer := t;
     snapshot := snapshot r;
     snapshotWrites := snapshotWrites r |}.

(** ** Circuit breaker *)

(** The breaker object of [initCircuitBreaker]. *)
Definition newCircuitBreaker : CircuitBreaker :=
  {| state := closed;
     failures := 0;
     threshold := 3;
     timeout := 60000;
     lastFailure := 0 |}.

Definition with_state (s : BreakerState) (b : CircuitBreaker)
  : CircuitBreaker :=
  {| state := s;
     failures := failures b;
     threshold := threshold b;
     timeout := timeout b;
     lastFailure := lastFailure b |}.

Definition with_failures (n : Z) (b : CircuitBreaker) : CircuitBreaker :=
  {| state := state b;
     failures := n;
     threshold := threshold b;
     timeout := timeout b;
     lastFailure := lastFailure b |}.

Definition with_lastFailure (t : Z) (b : CircuitBreaker) : CircuitBreaker :=
  {| state := state b;
     failures := failures b;
     threshold := threshold b;
     timeout := timeout b;
     lastFailure := t |}.

(** Body of [recordSuccess] on the breaker it found. *)
Definition breakerSuccess (breaker : CircuitBreaker) : CircuitBreaker :=
  let breaker := with_failures 0 breaker in
  if decide (state breaker = half_open)
  then with_state closed breaker
  else breaker.

(** Body of [recordFailure] on the breaker it found. *)
Definition breakerFailure (now : Z) (breaker : CircuitBreaker)
  : CircuitBreaker :=
  let breaker := with_failures (failures breaker + 1) breaker in
  let breaker := with_lastFailure now breaker in
  if threshold breaker <=? failures breaker
  then with_state open breaker
  else breaker.

(** ** Methods of [ServiceRegistry] *)

Definition initCircuitBreaker (serviceName : string) (r : ServiceRegistry)
  : ServiceRegistry :=
  with_circuitBreakers (<[serviceName := newCircuitBreaker]> (circuitBreakers r)) r.

(** [saveRegistry]: [writeOk] tells whether [fs.writeFile] succeeds; a
    failure is logged and swallowed. *)
Definition saveRegistry (writeOk : bool) (r : ServiceRegistry)
  : ServiceRegistry :=
  if writeOk
  then {| services := services r;
          circuitBreakers := circuitBreakers r;
          healthCheckTimer := healthCheckTimer r;
          snapshot := Some (JsMap.values (services r));
          snapshotWrites := S (snapshotWrites r) |}
  else r.

Definition startHealthChecks (r : ServiceRegistry) : ServiceRegistry :=
  with_healthCheckTimer true r.

Definition stopHealthChecks (r : ServiceRegistry) : ServiceRegistry :=
  with_healthCheckTimer false r.

(** The [forEach] callback of [initialize]. *)
Definition loadService (r : ServiceRegistry) (service : ServiceEntry)
  : ServiceRegistry :=
  initCircuitBreaker (name service)
    (with_services (JsMap.set (name service) service (services r)) r).

Definition initialize (r : ServiceRegistry) : ServiceRegistry :=
  let r :=
    match snapshot r with
    | Some loaded => foldl loadService r loaded
    | None => r
    end in
  startHealthChecks r.

Definition registerService (name0 url0 : string) (metadata0 : Metadata)
  (now : Z) (writeOk : bool) (r : ServiceRegistry)
  : ServiceEntry * ServiceRegistry :=
  let service :=
    {| name := name0;
       url := url0;
       metadata := metadata0;
       status := healthy;
       registeredAt := now;
       lastHealthCheck := now;
       failureCount := 0;
       lastError := None |} in
  let r := with_services (JsMap.set name0 service (services r)) r in
  let r := initCircuitBreaker name0 r in
  let r := saveRegistry writeOk r in
  (service, r).

Definition unregisterService (name0 : string) (writeOk : bool)
  (r : ServiceRegistry) : bool * ServiceRegistry :=
  if JsMap.has name0 (services r)
  then
    let r := with_services (JsMap.delete name0 (services r)) r in
    let r := with_circuitBreakers (base.delete name0 (circuitBreakers r)) r in
    let r := saveRegistry writeOk r in
    (true, r)
  else (false, r).

Definition circuitOpenMessage (name0 : string) : string :=
  ("Circuit breaker aberto para " ++ name0)%string.

Definition getService (name0 : string) (now : Z) (r : ServiceRegistry)
  : Outcome (option ServiceEntry) * ServiceRegistry :=
  match JsMap.get name0 (services r) with
  | None => (Return None, r)
  | Some service =>
      match circuitBreakers r !! name0 with
      | Some breaker =>
          if decide (state breaker = open)
          then
            if timeout breaker <? now - lastFailure breaker
            then (Return (Some service),
                  with_circuitBreakers
                    (<[name0 := with_state half_open breaker]>
                       (circuitBreakers r)) r)
            else (Throw (circuitOpenMessage name0), r)
          else (Return (Some service), r)
      | None => (Return (Some service), r)
      end
  end.

Definition getAllServices (r : ServiceRegistry) : list ServiceEntry :=
  JsMap.values (services r).

Definition isHealthy (service : ServiceEntry) : bool :=
  bool_decide (status service = healthy).

Definition getHealthyServices (r : ServiceRegistry) : list ServiceEntry :=
  List.filter isHealthy (JsMap.values (services r)).

Definition recordSuccess (serviceName : string) (r : ServiceRegistry)
  : ServiceRegistry :=
  match circuitBreakers r !! serviceName with
  | Some breaker =>
      with_circuitBreakers
        (<[serviceName := breakerSuccess breaker]> (circuitBreakers r)) r
  | None => r
  end.

Definition recordFailure (serviceName : string) (now : Z)
  (r : ServiceRegistry) : ServiceRegistry :=
  match circuitBreakers r !! serviceName with
  | Some breaker =>
      with_circuitBreakers
        (<[serviceName := breakerFailure now breaker]> (circuitBreakers r)) r
  | None => r
  end.

(** Result of the request [performHealthCheck] sends to
    [service.url + '/health']: a response with status 200, a response
    that resolves with another status, or a rejection carrying
    [error.message]. *)
Inductive Probe : Type :=
| ProbeOk
| ProbeOtherStatus
| ProbeError (message : string).

Definition probedHealthy (now : Z) (service : ServiceEntry) : ServiceEntry :=
  {| name := name service;
     url := url service;
     metadata := metadata service;
     status := healthy;
     registeredAt := registeredAt service;
     lastHealthCheck := now;
     failureCount := 0;
     lastError := lastError service |}.

Definition probedUnhealthy (message : string) (service : ServiceEntry)
  : ServiceEntry :=
  {| name := name service;
     url := url service;
     metadata := metadata service;
     status := unhealthy;
     registeredAt := registeredAt service;
     lastHealthCheck := lastHealthCheck service;
     failureCount := failureCount service + 1;
     lastError := Some message |}.

(** [performHealthCheck(service)] for the object the table holds under
    [key]: the timer callback takes its arguments from
    [this.services.values()], and the method assigns to the fields of
    that very object, so the change is seen by every later read of the
    table.  The result is the returned boolean, [None] for [undefined].
    A [key] without an entry stands for an object that has left the
    table since the callback took it; what the method does to such a
    detached object is not part of the model, and the state is returned
    as it is. *)
Definition performHealthCheck (probe : Probe) (now : Z) (key : string)
  (r : ServiceRegistry) : option bool * ServiceRegistry :=
  match JsMap.get key (services r) with
  | None => (None, r)
  | Some service =>
      match probe with
      | ProbeOk =>
          let service := probedHealthy now service in
          let r := with_services (JsMap.set key service (services r)) r in
          (Some true, recordSuccess (name service) r)
      | ProbeOtherStatus => (None, r)
      | ProbeError message =>
          let service := probedUnhealthy message service in
          let r := with_services (JsMap.set key service (services r)) r in
          (Some false, recordFailure (name service) now r)
      end
  end.

Definition shutdown (writeOk : bool) (r : ServiceRegistry) : ServiceRegistry :=
  saveRegistry writeOk (stopHealthChecks r).

(** [service.metadata.tags && service.metadata.tags.includes(tag)] *)
Definition hasTag (tag : string) (service : ServiceEntry) : bool :=
  match tags (metadata service) with
  | Some ts => bool_decide (tag ∈ ts)
  | None => false
  end.

Definition findServicesByTag (tag : string) (r : ServiceRegistry)
  : list ServiceEntry :=
  List.filter isHealthy (List.filter (hasTag tag) (JsMap.values (services r))).

(** [array[index]] for a number [index]: [undefined] out of range. *)
Definition arrayAt {A : Type} (l : list A) (index : Z) : option A :=
  if index <? 0 then None else l !! Z.to_nat index.

(** The array [getServiceWithLoadBalancing] filters out of the table. *)
Definition balancingCandidates (serviceName : string) (r : ServiceRegistry)
  : list ServiceEntry :=
  List.filter
    (λ service, String.prefix serviceName (name service) && isHealthy service)
    (JsMap.values (services r)).

(** [Math.floor(Date.now() / 1000) % services.length]: [/] on [Z] rounds
    down as [Math.floor] does, [%] takes the sign of the dividend as
    [Z.rem] does. *)
Definition getServiceWithLoadBalancing (serviceName : string) (now : Z)
  (r : ServiceRegistry) : option ServiceEntry :=
  let candidates := balancingCandidates serviceName r in
  if (List.length candidates =? 0)%nat then None
  else
    let index := Z.rem (now / 1000) (Z.of_nat (List.length candidates)) in
    arrayAt candidates index.

(** ** Derived notions used by the statements *)

(** [recordFailure] called once per instant of [times], oldest first. *)
Definition recordFailures (serviceName : string) (times : list Z)
  (r : ServiceRegistry) : ServiceRegistry :=
  foldl (λ r now, recordFailure serviceName now r) r times.

Definition breakerFailures (times : list Z) (b : CircuitBreaker)
  : CircuitBreaker :=
  foldl (λ b now, breakerFailure now b) b times.

(** The two maps hold the same names. *)
Definition paired (r : ServiceRegistry) : Prop :=
  ∀ k, is_Some (JsMap.get k (services r)) ↔ is_Some (circuitBreakers r !! k).

(** Every entry sits under its own name, and no key occurs twice: what
    the table of a registry built by its methods looks like. *)
Definition tableWf (m : list (string * ServiceEntry)) : Prop :=
  NoDup (JsMap.keys m) ∧ Forall (λ kv, name kv.2 = kv.1) m.

(** Number of entries of [l] named [n]. *)
Definition countNamed (n : string) (l : list ServiceEntry) : nat :=
  List.length (List.filter (λ e, bool_decide (name e = n)) l).

(** ** A running example: the item service of the gateway *)

Definition itemMetadata : Metadata :=
  {| version := Some "1.0.0"%string;
     tags := Some ["items"%string; "catalog"%string];
     endpoints := None |}.

Definition itemEntry : ServiceEntry :=
  (registerService "item-service" "http://localhost:3002" itemMetadata
     1000 true (initialize (newServiceRegistry None))).1.

Definition itemRegistry : ServiceRegistry :=
  (registerService "item-service" "http://localhost:3002" itemMetadata
     1000 true (initialize (newServiceRegistry None))).2.

(** Three failed calls trip the breaker at instant 5000. *)
Definition trippedRegistry : ServiceRegistry :=
  recordFailures "item-service" [3000; 4000; 5000] itemRegistry.

(** A successful health probe arrives while the breaker is open, then the
    first lookup after the timeout lets a trial through. *)
Definition trialRegistry : ServiceRegistry :=
  (getService "item-service" 70000
     (performHealthCheck ProbeOk 30000 "item-service" trippedRegistry).2).2.

(** Three instances behind one prefix; a failed probe at 31000 marks the
    second one unhealthy. *)
Definition svcRegistry : ServiceRegistry :=
  let r := initialize (newServiceRegistry None) in
  let r := (registerService "svc-a" "http://localhost:4001" emptyMetadata
              1000 true r).2 in
  let r := (registerService "svc-b" "http://localhost:4002" emptyMetadata
              1001 true r).2 in
  let r := (registerService "svc-c" "http://localhost:4003" emptyMetadata
              1002 true r).2 in
  (performHealthCheck (ProbeError "timeout of 5000ms exceeded") 31000
     "svc-b" r).2.

(** The item service after a failed probe at 31000. *)
Definition probedItemRegistry : ServiceRegistry :=
  (performHealthCheck (ProbeError "connect ECONNREFUSED") 31000
     "item-service" itemRegistry).2.

(** ** The periodic health sweep *)

(** The callback [startHealthChecks] hands to [setInterval]: the entries
    of the table at the start of the sweep are probed one after the
    other, then the table is written.  The loop runs over the objects of
    [this.services.values()]; here it runs over their keys, each object
    being the one the table holds under its key.  [probe key] is the
    outcome of the request for the entry under [key] and the clock value
    when it settles.  Nothing else runs between the probes of one
    sweep. *)
Definition healthSweep (probe : string → Probe * Z) (writeOk : bool)
  (r : ServiceRegistry) : ServiceRegistry :=
  let swept :=
    foldl (λ r key, (performHealthCheck (probe key).1 (probe key).2 key r).2)
      r (JsMap.keys (services r)) in
  saveRegistry writeOk swept.

(** ** The gateway's use of the registry ([api-gateway/index.js]) *)

Definition unavailableMessage (serviceName : string) : string :=
  ("Serviço " ++ serviceName ++ " não disponível")%string.

(** [makeServiceRequest]: [reply] is what the [axios] call settles with
    ([Return] the response data, [Throw] the rejection message); [now]
    is the clock at the lookup and [later] the clock when the outcome is
    recorded.  The registry is not touched by anyone else while the
    request is in flight. *)
Definition makeServiceRequest (serviceName : string) (reply : Outcome string)
  (now later : Z) (r : ServiceRegistry) : Outcome string * ServiceRegistry :=
  match getService serviceName now r with
  | (Return (Some service), r) =>
      match reply with
      | Return data => (Return data, recordSuccess serviceName r)
      | Throw message => (Throw message, recordFailure serviceName later r)
      end
  | (Return None, r) =>
      (Throw (unavailableMessage serviceName),
       recordFailure serviceName later r)
  | (Throw message, r) => (Throw message, recordFailure serviceName later r)
  end.

(** [message.includes(part)] *)
Definition includes (message part : string) : bool :=
  match String.index 0 part message with
  | Some _ => true
  | None => false
  end.

(** What the handler built by [createDynamicProxy] does before the proxy
    middleware takes over: answer 503 itself, forward to the address of
    the entry, or pass an error on to [next].  The middleware's
    [onError] and [onProxyRes] callbacks are [recordFailure] and
    [recordSuccess] on the same name. *)
Inductive ProxyDecision : Type :=
| ServiceUnavailable
| CircuitBreakerOpen
| ForwardTo (target : string)
| NextError (message : string).

Definition createDynamicProxy (serviceName : string) (now : Z)
  (r : ServiceRegistry) : ProxyDecision * ServiceRegistry :=
  match getService serviceName now r with
  | (Return (Some service), r) => (ForwardTo (url service), r)
  | (Return None, r) => (ServiceUnavailable, r)
  | (Throw message, r) =>
      if includes message "Circuit breaker"
      then (CircuitBreakerOpen, r)
      else (NextError message, r)
  end.

(** What one probe of a sweep does to the entry and to the breaker of
    the probed name. *)
Definition probedEntry (p : Probe * Z) (service : ServiceEntry)
  : ServiceEntry :=
  match p.1 with
  | ProbeOk => probedHealthy p.2 service
  | ProbeOtherStatus => service
  | ProbeError message => probedUnhealthy message service
  end.

Definition probedBreaker (p : Probe * Z) (b : CircuitBreaker)
  : CircuitBreaker :=
  match p.1 with
  | ProbeOk => breakerSuccess b
  | ProbeOtherStatus => b
  | ProbeError _ => breakerFailure p.2 b
  end.

(** ** Invariants of a registry built by its methods *)

(** Every breaker carries the constants of [initCircuitBreaker], its
    count is not negative, and a closed breaker counts fewer failures
    than the threshold. *)
Definition breakerOk (b : CircuitBreaker) : Prop :=
  threshold b = 3 ∧ timeout b = 60000 ∧ 0 ≤ failures b
  ∧ (state b = closed → failures b < threshold b).

Definition breakersOk (r : ServiceRegistry) : Prop :=
  ∀ k b, circuitBreakers r !! k = Some b → breakerOk b.

(** An entry is healthy with a count of zero, or unhealthy with a
    positive count. *)
Definition entryOk (e : ServiceEntry) : Prop :=
  (status e = healthy ∧ failureCount e = 0)
  ∨ (status e = unhealthy ∧ 0 < failureCount e).

Definition entriesOk (r : ServiceRegistry) : Prop :=
  Forall entryOk (getAllServices r).

(** Requests that find the breaker shut: each pair is the clock at the
    lookup and the clock when the failure is recorded; every lookup
    comes no later than [window] after the previous record. *)
Fixpoint spaced (window previous : Z) (calls : list (Z * Z)) : Prop :=
  match calls with
  | [] => True
  | (now, later) :: calls =>
      now - previous ≤ window ∧ spaced window later calls
  end.

Definition makeServiceRequests (serviceName : string) (reply : Outcome string)
  (calls : list (Z * Z)) (r : ServiceRegistry) : ServiceRegistry :=
  foldl (λ r call, (makeServiceRequest serviceName reply call.1 call.2 r).2)
    r calls.

(** ** Facts about [JsMap] *)

Section JsMapFacts.
Context {V : Type}.
Implicit Types (k : string) (v : V) (m : list (string * V)).

Lemma jsmap_get_set_eq k v m : JsMap.get k (JsMap.set k v m) = Some v.
Proof.
  induction m as [|[k' v'] m IH]; simpl.
  - by rewrite decide_True.
  - case_decide; simpl.
    + by rewrite decide_True.
    + by rewrite decide_False.
Qed.

Lemma jsmap_get_set_ne k k' v m :
  k ≠ k' → JsMap.get k' (JsMap.set k v m) = JsMap.get k' m.
Proof.
  intros Hne. induction m as [|[k0 v0] m IH]; simpl.
  - by rewrite decide_False.
  - destruct (decide (k = k0)) as [->|]; simpl.
    + by rewrite !decide_False.
    + by rewrite IH.
Qed.

Lemma jsmap_get_delete_eq k m : JsMap.get k (JsMap.delete k m) = None.
Proof.
  induction m as [|[k' v'] m IH]; simpl; [done|].
  case_decide; simpl; [done|]. by rewrite decide_False.
Qed.

Lemma jsmap_get_delete_ne k k' m :
  k ≠ k' → JsMap.get k' (JsMap.delete k m) = JsMap.get k' m.
Proof.
  intros Hne. induction m as [|[k0 v0] m IH]; simpl; [done|].
  destruct (decide (k = k0)) as [->|]; simpl.
  - by rewrite IH, decide_False.
  - by rewrite IH.
Qed.

Lemma jsmap_has_get k m : JsMap.has k m = true ↔ is_Some (JsMap.get k m).
Proof.
  unfold JsMap.has. destruct (JsMap.get k m); split; intros H;
    try done; try by eexists.
Qed.

Lemma jsmap_get_None k m : JsMap.get k m = None ↔ k ∉ JsMap.keys m.
Proof.
  unfold JsMap.keys. induction m as [|[k' v'] m IH]; simpl.
  - split; [intros _; apply not_elem_of_nil | done].
  - rewrite not_elem_of_cons. case_decide; [naive_solver|].
    rewrite IH. naive_solver.
Qed.

Lemma jsmap_get_Some_elem k v m : JsMap.get k m = Some v → (k, v) ∈ m.
Proof.
  induction m as [|[k' v'] m IH]; simpl; [done|].
  case_decide; intros ?; simplify_eq; [left | right; auto].
Qed.

Lemma jsmap_elem_get k v m :
  NoDup (JsMap.keys m) → (k, v) ∈ m → JsMap.get k m = Some v.
Proof.
  unfold JsMap.keys. induction m as [|[k' v'] m IH]; simpl.
  - intros _ H. by apply elem_of_nil in H.
  - rewrite NoDup_cons. intros [Hk Hnd] [Heq|Hin]%elem_of_cons.
    + simplify_eq. by rewrite decide_True.
    + case_decide; [|by apply IH]. subst k'. exfalso. apply Hk.
      apply list_elem_of_fmap. by exists (k, v).
Qed.

Lemma jsmap_elem_set k v kv m :
  kv ∈ JsMap.set k v m → kv = (k, v) ∨ (kv ∈ m ∧ kv.1 ≠ k) ∨ (kv ∈ m ∧ k ∈ JsMap.keys m).
Proof.
  unfold JsMap.keys. induction m as [|[k' v'] m IH]; simpl.
  - intros ->%list_elem_of_singleton. by left.
  - destruct (decide (k = k')) as [->|Hne].
    + intros [->|Hin]%elem_of_cons; [by left|].
      right; right. split; [by right | by left].
    + intros [->|Hin]%elem_of_cons.
      * right; left. split; [by left | simpl; congruence].
      * destruct (IH Hin) as [?|[[? ?]|[? ?]]]; [by left|..].
        -- right; left. split; [by right | done].
        -- right; right. split; by right.
Qed.

Lemma jsmap_keys_set_elem k k' v m :
  k' ∈ JsMap.keys (JsMap.set k v m) ↔ k' = k ∨ k' ∈ JsMap.keys m.
Proof.
  unfold JsMap.keys. induction m as [|[k0 v0] m IH]; simpl.
  - rewrite list_elem_of_singleton. split; [by left|].
    intros [?|H]; [done | by apply elem_of_nil in H].
  - destruct (decide (k = k0)) as [->|Hne]; simpl.
    + rewrite !elem_of_cons. naive_solver.
    + rewrite !elem_of_cons, IH. naive_solver.
Qed.

Lemma jsmap_NoDup_set k v m :
  NoDup (JsMap.keys m) → NoDup (JsMap.keys (JsMap.set k v m)).
Proof.
  induction m as [|[k' v'] m IH]; simpl.
  - intros _. apply NoDup_singleton.
  - unfold JsMap.keys in *. simpl. rewrite NoDup_cons. intros [Hk Hnd].
    destruct (decide (k = k')) as [->|Hne]; simpl.
    + by apply NoDup_cons.
    + apply NoDup_cons. split; [|by apply IH].
      intros [?|?]%(jsmap_keys_set_elem k k' v m); [congruence | done].
Qed.

Lemma jsmap_elem_delete k kv m :
  kv ∈ JsMap.delete k m ↔ kv ∈ m ∧ kv.1 ≠ k.
Proof.
  induction m as [|[k' v'] m IH]; simpl.
  - split; [intros H; by apply elem_of_nil in H|].
    intros [H _]; by apply elem_of_nil in H.
  - destruct (decide (k = k')) as [->|Hne].
    + rewrite IH, elem_of_cons. split; [naive_solver|].
      intros [[->|?] ?]; [done | by split].
    + rewrite !elem_of_cons, IH. split; [|naive_solver].
      intros [->|[? ?]]; [split; [by left | simpl; congruence] | by split; [right|]].
Qed.

Lemma jsmap_NoDup_delete k m :
  NoDup (JsMap.keys m) → NoDup (JsMap.keys (JsMap.delete k m)).
Proof.
  unfold JsMap.keys. induction m as [|[k' v'] m IH]; simpl; [done|].
  rewrite NoDup_cons. intros [Hk Hnd].
  case_decide; simpl; [by apply IH|].
  apply NoDup_cons. split; [|by apply IH].
  intros [[k0 v0] [Heq Hin]]%list_elem_of_fmap. simpl in Heq. subst k0.
  apply jsmap_elem_delete in Hin as [Hin _]. apply Hk.
  apply list_elem_of_fmap. by exists (k', v0).
Qed.
End JsMapFacts.

(** ** The breaker as a state machine *)

Section BreakerFacts.
Implicit Types (b : CircuitBreaker) (now : Z) (times : list Z).

Lemma breakerSuccess_failures b : failures (breakerSuccess b) = 0.
Proof. unfold breakerSuccess. simpl. by case_decide. Qed.

Lemma breakerSuccess_state b :
  state (breakerSuccess b)
  = if decide (state b = half_open) then closed else state b.
Proof. unfold breakerSuccess. simpl. by case_decide. Qed.

Lemma breakerSuccess_frame b :
  threshold (breakerSuccess b) = threshold b
  ∧ timeout (breakerSuccess b) = timeout b
  ∧ lastFailure (breakerSuccess b) = lastFailure b.
Proof. unfold breakerSuccess. simpl. by case_decide. Qed.

Lemma breakerFailure_fields now b :
  failures (breakerFailure now b) = failures b + 1
  ∧ lastFailure (breakerFailure now b) = now
  ∧ threshold (breakerFailure now b) = threshold b
  ∧ timeout (breakerFailure now b) = timeout b.
Proof. unfold breakerFailure. simpl. by destruct (_ <=? _). Qed.

Lemma breakerFailure_trips now b :
  threshold b ≤ failures b + 1 → state (breakerFailure now b) = open.
Proof.
  intros H. unfold breakerFailure. simpl.
  by destruct (Z.leb_spec (threshold b) (failures b + 1)); [|lia].
Qed.

Lemma breakerFailure_below now b :
  failures b + 1 < threshold b → state (breakerFailure now b) = state b.
Proof.
  intros H. unfold breakerFailure. simpl.
  by destruct (Z.leb_spec (threshold b) (failures b + 1)); [lia|].
Qed.

Lemma breakerFailures_snoc times now b :
  breakerFailures (times ++ [now]) b
  = breakerFailure now (breakerFailures times b).
Proof. unfold breakerFailures. by rewrite foldl_app. Qed.

(** [n] failures in a row on a breaker that starts closed with a count
    of zero: the count is [n], and the breaker is open exactly from the
    failure that brings the count to the threshold. *)
Lemma breakerFailures_from_zero times b :
  state b = closed → failures b = 0 →
  let b' := breakerFailures times b in
  failures b' = Z.of_nat (List.length times)
  ∧ threshold b' = threshold b
  ∧ timeout b' = timeout b
  ∧ (Z.of_nat (List.length times) < threshold b → state b' = closed)
  ∧ (times ≠ [] → threshold b ≤ Z.of_nat (List.length times) →
     state b' = open)
  ∧ (∀ now, last times = Some now → lastFailure b' = now).
Proof.
  intros Hst Hfl. induction times as [|now times IH] using rev_ind.
  - simpl. repeat split; done.
  - simpl. rewrite breakerFailures_snoc. simpl in IH.
    destruct IH as (Hf & Hth & Hto & Hclosed & Hopen & _).
    destruct (breakerFailure_fields now (breakerFailures times b))
      as (Hf' & Hl' & Hth' & Hto').
    rewrite length_app. simpl.
    repeat split; try congruence.
    + lia.
    + intros Hlt. rewrite breakerFailure_below by lia. apply Hclosed. lia.
    + intros _ Hge. apply breakerFailure_trips. lia.
    + intros now'. rewrite last_snoc. congruence.
Qed.
End BreakerFacts.

(** ** Lifting breaker facts to the registry *)

Section RegistryFacts.
Implicit Types (r : ServiceRegistry) (b : CircuitBreaker).

Lemma recordSuccess_lookup serviceName r b :
  circuitBreakers r !! serviceName = Some b →
  circuitBreakers (recordSuccess serviceName r) !! serviceName
  = Some (breakerSuccess b).
Proof.
  intros H. unfold recordSuccess. rewrite H. simpl.
  by rewrite lookup_insert_eq.
Qed.

Lemma recordFailure_lookup serviceName now r b :
  circuitBreakers r !! serviceName = Some b →
  circuitBreakers (recordFailure serviceName now r) !! serviceName
  = Some (breakerFailure now b).
Proof.
  intros H. unfold recordFailure. rewrite H. simpl.
  by rewrite lookup_insert_eq.
Qed.

Lemma recordSuccess_lookup_ne serviceName k r :
  serviceName ≠ k →
  circuitBreakers (recordSuccess serviceName r) !! k
  = circuitBreakers r !! k.
Proof.
  intros Hne. unfold recordSuccess.
  destruct (circuitBreakers r !! serviceName); [|done].
  simpl. by rewrite lookup_insert_ne.
Qed.

Lemma recordFailure_lookup_ne serviceName now k r :
  serviceName ≠ k →
  circuitBreakers (recordFailure serviceName now r) !! k
  = circuitBreakers r !! k.
Proof.
  intros Hne. unfold recordFailure.
  destruct (circuitBreakers r !! serviceName); [|done].
  simpl. by rewrite lookup_insert_ne.
Qed.

Lemma recordSuccess_services serviceName r :
  services (recordSuccess serviceName r) = services r.
Proof.
  unfold recordSuccess. by destruct (circuitBreakers r !! serviceName).
Qed.

Lemma recordFailure_services serviceName now r :
  services (recordFailure serviceName now r) = services r.
Proof.
  unfold recordFailure. by destruct (circuitBreakers r !! serviceName).
Qed.

Lemma recordFailure_snapshot serviceName now r :
  snapshot (recordFailure serviceName now r) = snapshot r
  ∧ snapshotWrites (recordFailure serviceName now r) = snapshotWrites r.
Proof.
  unfold recordFailure. by destruct (circuitBreakers r !! serviceName).
Qed.

Lemma recordFailures_lookup serviceName times r b :
  circuitBreakers r !! serviceName = Some b →
  circuitBreakers (recordFailures serviceName times r) !! serviceName
  = Some (breakerFailures times b).
Proof.
  revert r b. induction times as [|now times IH]; intros r b H; [done|].
  simpl. apply IH. by apply recordFailure_lookup.
Qed.

Lemma recordFailures_services serviceName times r :
  services (recordFailures serviceName times r) = services r.
Proof.
  revert r. induction times as [|now times IH]; intros r; [done|].
  unfold recordFailures in *. simpl. rewrite IH.
  apply recordFailure_services.
Qed.

(** The three outcomes of a lookup of a known name, by breaker. *)
Lemma getService_passes name0 now r service b :
  JsMap.get name0 (services r) = Some service →
  circuitBreakers r !! name0 = Some b →
  state b ≠ open →
  getService name0 now r = (Return (Some service), r).
Proof.
  intros Hs Hb Hst. unfold getService. rewrite Hs, Hb.
  by rewrite decide_False.
Qed.

Lemma getService_blocked name0 now r service b :
  JsMap.get name0 (services r) = Some service →
  circuitBreakers r !! name0 = Some b →
  state b = open →
  now - lastFailure b ≤ timeout b →
  getService name0 now r = (Throw (circuitOpenMessage name0), r).
Proof.
  intros Hs Hb Hst Hle. unfold getService. rewrite Hs, Hb.
  rewrite decide_True by done.
  by destruct (Z.ltb_spec (timeout b) (now - lastFailure b)); [lia|].
Qed.

Lemma getService_trial name0 now r service b :
  JsMap.get name0 (services r) = Some service →
  circuitBreakers r !! name0 = Some b →
  state b = open →
  timeout b < now - lastFailure b →
  getService name0 now r
  = (Return (Some service),
     with_circuitBreakers
       (<[name0 := with_state half_open b]> (circuitBreakers r)) r).
Proof.
  intros Hs Hb Hst Hlt. unfold getService. rewrite Hs, Hb.
  rewrite decide_True by done.
  by destruct (Z.ltb_spec (timeout b) (now - lastFailure b)); [|lia].
Qed.
End RegistryFacts.

(** ** Lookup through the breaker *)

(** C1 (as the code has it).  [getService] on a name without an entry
    returns [null], which is never a thrown error.  On a registered name
    it returns the entry and leaves the registry alone when the breaker
    is closed or half-open; it throws the circuit-open error when the
    breaker is open and [now - lastFailure] is at most [timeout]
    (equality included); and when the breaker is open and
    [now - lastFailure] is strictly greater than [timeout] it returns
    the entry and moves that breaker, and nothing else, to half-open. *)
Theorem getService_by_breaker (name0 : string) (now : Z) (r : ServiceRegistry) :
  (JsMap.get name0 (services r) = None →
   getService name0 now r = (Return None, r)
   ∧ ∀ message, (getService name0 now r).1 ≠ Throw message)
  ∧ (∀ service breaker,
       JsMap.get name0 (services r) = Some service →
       circuitBreakers r !! name0 = Some breaker →
       (state breaker = closed ∨ state breaker = half_open →
        getService name0 now r = (Return (Some service), r))
       ∧ (state breaker = open →
          now - lastFailure breaker ≤ timeout breaker →
          getService name0 now r = (Throw (circuitOpenMessage name0), r))
       ∧ (state breaker = open →
          timeout breaker < now - lastFailure breaker →
          ∃ r',
            getService name0 now r = (Return (Some service), r')
            ∧ circuitBreakers r' !! name0
              = Some (with_state half_open breaker)
            ∧ (∀ k, k ≠ name0 →
                    circuitBreakers r' !! k = circuitBreakers r !! k)
            ∧ services r' = services r)).
Proof.
  split.
  - intros Hnone. unfold getService. rewrite Hnone. by split.
  - intros service breaker Hs Hb. repeat split.
    + intros Hst. eapply getService_passes; eauto.
      destruct Hst as [-> | ->]; discriminate.
    + intros Hst Hle. eapply getService_blocked; eauto.
    + intros Hst Hlt. eexists. split; [eapply getService_trial; eauto|].
      simpl. split; [apply lookup_insert_eq|].
      split; [|done]. intros k Hk. by apply lookup_insert_ne.
Qed.

Lemma getService_by_breaker_witness :
  JsMap.get "item-service" (services trippedRegistry)
  = JsMap.get "item-service" (services itemRegistry)
  ∧ (∃ breaker,
       circuitBreakers trippedRegistry !! "item-service"%string = Some breaker
       ∧ state breaker = open
       ∧ 65000 - lastFailure breaker ≤ timeout breaker
       ∧ getService "item-service" 65000 trippedRegistry
         = (Throw (circuitOpenMessage "item-service"), trippedRegistry))
  ∧ (∃ r',
       getService "item-service" 65001 trippedRegistry
       = (Return (Some itemEntry), r')
       ∧ circuitBreakers r' !! "item-service"%string
         = Some {| state := half_open; failures := 3; threshold := 3;
                   timeout := 60000; lastFailure := 5000 |})
  ∧ JsMap.get "user-service" (services trippedRegistry) = None
  ∧ getService "user-service" 65000 trippedRegistry
    = (Return None, trippedRegistry).
Proof.
  split; [reflexivity|].
  destruct (getService_by_breaker "item-service" 65000 trippedRegistry)
    as [_ Hat].
  destruct (Hat itemEntry
              {| state := open; failures := 3; threshold := 3;
                 timeout := 60000; lastFailure := 5000 |})
    as (_ & Hblocked & _); [vm_compute; reflexivity..|].
  destruct (getService_by_breaker "item-service" 65001 trippedRegistry)
    as [_ Hafter].
  destruct (Hafter itemEntry
              {| state := open; failures := 3; threshold := 3;
                 timeout := 60000; lastFailure := 5000 |})
    as (_ & _ & Htrial); [vm_compute; reflexivity..|].
  split.
  - eexists. split; [vm_compute; reflexivity|].
    split; [reflexivity|]. split; [vm_compute; discriminate|].
    apply Hblocked; [reflexivity | vm_compute; discriminate].
  - split.
    + destruct Htrial as (r' & Hres & Hb & _);
        [reflexivity | vm_compute; reflexivity |].
      exists r'. split; [exact Hres | exact Hb].
    + split; [reflexivity|].
      destruct (getService_by_breaker "user-service" 65000 trippedRegistry)
        as [Hunknown _].
      apply Hunknown. reflexivity.
Defined.

(** C1 as the specification words it, at the boundary: the breaker of
    ["item-service"] is open with [lastFailure = 5000] and
    [timeout = 60000]; at [now = 65000] the difference equals the
    timeout, and the lookup throws instead of returning the entry. *)
Lemma getService_at_exact_timeout_counterexample :
  ∃ service breaker,
    JsMap.get "item-service" (services trippedRegistry) = Some service
    ∧ circuitBreakers trippedRegistry !! "item-service"%string = Some breaker
    ∧ state breaker = open
    ∧ 65000 - lastFailure breaker = timeout breaker
    ∧ (getService "item-service" 65000 trippedRegistry).1
      ≠ Return (Some service)
    ∧ getService "item-service" 65000 trippedRegistry
      = (Throw (circuitOpenMessage "item-service"), trippedRegistry).
Proof.
  do 2 eexists. split; [vm_compute; reflexivity|].
  split; [vm_compute; reflexivity|].
  split; [reflexivity|]. split; [reflexivity|].
  split; [vm_compute; discriminate | vm_compute; reflexivity].
Qed.

(** C2.  Take a registered name whose breaker is closed with a count of
    zero and a positive threshold, as [initCircuitBreaker] leaves it, and
    report failures at the instants [times] with nothing in between.
    With fewer failures than the threshold the breaker is still closed
    and every lookup returns the entry; with exactly as many as the
    threshold the breaker is open, its [lastFailure] is the last instant,
    and a lookup throws the circuit-open error at every [now] with
    [now - lastFailure < timeout]. *)
Theorem recordFailures_trip (name0 : string) (service : ServiceEntry)
  (fresh : CircuitBreaker) (times : list Z) (r : ServiceRegistry) :
  JsMap.get name0 (services r) = Some service →
  circuitBreakers r !! name0 = Some fresh →
  state fresh = closed →
  failures fresh = 0 →
  0 < threshold fresh →
  let r' := recordFailures name0 times r in
  (Z.of_nat (List.length times) < threshold fresh →
   (∃ b, circuitBreakers r' !! name0 = Some b ∧ state b = closed)
   ∧ ∀ now, getService name0 now r' = (Return (Some service), r'))
  ∧ (Z.of_nat (List.length times) = threshold fresh →
     ∃ b, circuitBreakers r' !! name0 = Some b
          ∧ state b = open
          ∧ last times = Some (lastFailure b)
          ∧ timeout b = timeout fresh
          ∧ ∀ now, now - lastFailure b < timeout b →
                   getService name0 now r'
                   = (Throw (circuitOpenMessage name0), r')).
Proof.
  intros Hs Hb Hst Hfl Hth r'.
  pose proof (recordFailures_lookup name0 times r fresh Hb) as Hb'.
  pose proof (recordFailures_services name0 times r) as Hs'.
  destruct (breakerFailures_from_zero times fresh Hst Hfl)
    as (_ & _ & Hto & Hclosed & Hopen & Hlast).
  fold r' in Hb', Hs'. split.
  - intros Hlt. split; [eexists; split; [exact Hb' | by apply Hclosed]|].
    intros now. eapply getService_passes; [by rewrite Hs' | exact Hb' |].
    rewrite Hclosed by done. discriminate.
  - intros Heq.
    assert (times ≠ []) as Hne by (intros ->; simpl in Heq; lia).
    destruct (last times) as [t|] eqn:Hl;
      [|by apply last_None in Hl].
    eexists. split; [exact Hb'|].
    split; [apply Hopen; [done | lia]|].
    split; [by rewrite (Hlast t)|]. split; [exact Hto|].
    intros now Hnow. eapply getService_blocked; [by rewrite Hs' | exact Hb' | |lia].
    apply Hopen; [done | lia].
Qed.

Lemma recordFailures_trip_witness :
  (JsMap.get "item-service" (services itemRegistry) = Some itemEntry
   ∧ circuitBreakers itemRegistry !! "item-service"%string
     = Some newCircuitBreaker)
  ∧ ∃ b, circuitBreakers trippedRegistry !! "item-service"%string = Some b
         ∧ state b = open
         ∧ last [3000; 4000; 5000] = Some (lastFailure b)
         ∧ timeout b = timeout newCircuitBreaker
         ∧ ∀ now, now - lastFailure b < timeout b →
                  getService "item-service" now trippedRegistry
                  = (Throw (circuitOpenMessage "item-service"),
                     trippedRegistry).
Proof.
  split; [split; vm_compute; reflexivity|].
  refine (proj2 (recordFailures_trip "item-service" _ newCircuitBreaker
                   [3000; 4000; 5000] itemRegistry _ _ _ _ _) _);
    solve [vm_compute; reflexivity].
Defined.

(** ** Outcome reports *)

(** What the two reports do to a half-open breaker in general: a success
    closes it with a count of zero; a failure stamps [lastFailure] and
    re-opens it when the incremented count reaches the threshold. *)
Lemma recordSuccess_half_open serviceName r b :
  circuitBreakers r !! serviceName = Some b →
  state b = half_open →
  circuitBreakers (recordSuccess serviceName r) !! serviceName
  = Some (with_state closed (with_failures 0 b)).
Proof.
  intros Hb Hst. rewrite (recordSuccess_lookup _ _ _ Hb).
  unfold breakerSuccess. simpl. by rewrite decide_True.
Qed.

Lemma recordFailure_half_open_reopens serviceName now r b :
  circuitBreakers r !! serviceName = Some b →
  state b = half_open →
  threshold b ≤ failures b + 1 →
  ∃ b', circuitBreakers (recordFailure serviceName now r) !! serviceName
        = Some b'
        ∧ state b' = open ∧ lastFailure b' = now.
Proof.
  intros Hb Hst Hge. eexists. split; [by apply recordFailure_lookup|].
  split; [by apply breakerFailure_trips|].
  by destruct (breakerFailure_fields now b) as (_ & ? & _).
Qed.

(** C3, evaluated where the code departs from it.  ["item-service"] is
    registered, three failures open its breaker, a successful health
    probe calls [recordSuccess] while it is open (the count goes to 0,
    the state stays open), and the lookup at 70000 moves it to half-open.
    The failure then reported at 71000 stamps [lastFailure] but leaves
    the breaker half-open with a count of 1: it is not re-opened, and the
    next lookup passes. *)
Theorem recordFailure_half_open_after_reset :
  circuitBreakers trialRegistry !! "item-service"%string
  = Some {| state := half_open; failures := 0; threshold := 3;
            timeout := 60000; lastFailure := 5000 |}
  ∧ circuitBreakers (recordFailure "item-service" 71000 trialRegistry)
      !! "item-service"%string
    = Some {| state := half_open; failures := 1; threshold := 3;
              timeout := 60000; lastFailure := 71000 |}
  ∧ ∃ service,
      (getService "item-service" 71001
         (recordFailure "item-service" 71000 trialRegistry)).1
      = Return (Some service).
Proof.
  split; [vm_compute; reflexivity|].
  split; [vm_compute; reflexivity|].
  eexists. vm_compute. reflexivity.
Qed.

(** C8 (as the code has it).  A failure reported on a closed breaker
    whose incremented count stays below the threshold leaves it closed,
    adds one to [failures] and sets [lastFailure] to [now]; [threshold]
    and [timeout] keep their values, and so do the other breakers, the
    table and the snapshot file. *)
Theorem recordFailure_below_threshold (serviceName : string) (now : Z)
  (r : ServiceRegistry) (breaker : CircuitBreaker) :
  circuitBreakers r !! serviceName = Some breaker →
  state breaker = closed →
  failures breaker + 1 < threshold breaker →
  let r' := recordFailure serviceName now r in
  circuitBreakers r' !! serviceName
  = Some {| state := closed;
            failures := failures breaker + 1;
            threshold := threshold breaker;
            timeout := timeout breaker;
            lastFailure := now |}
  ∧ (∀ k, k ≠ serviceName →
          circuitBreakers r' !! k = circuitBreakers r !! k)
  ∧ services r' = services r
  ∧ snapshot r' = snapshot r
  ∧ snapshotWrites r' = snapshotWrites r.
Proof.
  intros Hb Hst Hlt r'. subst r'.
  rewrite (recordFailure_lookup _ _ _ _ Hb).
  split.
  - f_equal. unfold breakerFailure. simpl.
    destruct (Z.leb_spec (threshold breaker) (failures breaker + 1));
      [lia|].
    destruct breaker; simpl in *. by subst.
  - split; [intros k Hk; by apply recordFailure_lookup_ne|].
    split; [apply recordFailure_services | apply recordFailure_snapshot].
Qed.

Lemma recordFailure_below_threshold_witness :
  (circuitBreakers itemRegistry !! "item-service"%string
   = Some newCircuitBreaker
   ∧ state newCircuitBreaker = closed
   ∧ failures newCircuitBreaker + 1 < threshold newCircuitBreaker)
  ∧ circuitBreakers (recordFailure "item-service" 3000 itemRegistry)
      !! "item-service"%string
    = Some {| state := closed; failures := failures newCircuitBreaker + 1;
              threshold := threshold newCircuitBreaker;
              timeout := timeout newCircuitBreaker;
              lastFailure := 3000 |}.
Proof.
  split; [repeat split; vm_compute; reflexivity|].
  refine (proj1 (recordFailure_below_threshold "item-service" 3000
                   itemRegistry newCircuitBreaker _ _ _));
    vm_compute; reflexivity.
Defined.

(** C8 as the specification words it, on the fresh item service:
    the breaker is closed with count 0 and threshold 3, so the failure
    reported at 3000 is below the threshold, yet [lastFailure] goes from
    0 to 3000. *)
Lemma recordFailure_lastFailure_counterexample :
  ∃ before after,
    circuitBreakers itemRegistry !! "item-service"%string = Some before
    ∧ circuitBreakers (recordFailure "item-service" 3000 itemRegistry)
        !! "item-service"%string = Some after
    ∧ state before = closed
    ∧ failures before + 1 < threshold before
    ∧ state after = closed
    ∧ lastFailure after ≠ lastFailure before.
Proof.
  do 2 eexists. split; [vm_compute; reflexivity|].
  split; [vm_compute; reflexivity|].
  repeat split; vm_compute; discriminate.
Qed.

(** C10.  For a name with a breaker, [recordSuccess] sets [failures] to
    0 whatever the state, turns half-open into closed and keeps any
    other state, so an open breaker stays open with a count of zero;
    [threshold], [timeout] and [lastFailure] keep their values, and so do
    the other breakers and the table. *)
Theorem recordSuccess_resets_count (serviceName : string)
  (r : ServiceRegistry) (breaker : CircuitBreaker) :
  circuitBreakers r !! serviceName = Some breaker →
  let r' := recordSuccess serviceName r in
  ∃ breaker',
    circuitBreakers r' !! serviceName = Some breaker'
    ∧ failures breaker' = 0
    ∧ (state breaker = half_open → state breaker' = closed)
    ∧ (state breaker ≠ half_open → state breaker' = state breaker)
    ∧ (state breaker = open →
       breaker' = with_failures 0 breaker ∧ state breaker' = open)
    ∧ threshold breaker' = threshold breaker
    ∧ timeout breaker' = timeout breaker
    ∧ lastFailure breaker' = lastFailure breaker
    ∧ (∀ k, k ≠ serviceName →
            circuitBreakers r' !! k = circuitBreakers r !! k)
    ∧ services r' = services r.
Proof.
  intros Hb r'. subst r'. exists (breakerSuccess breaker).
  split; [by apply recordSuccess_lookup|].
  split; [apply breakerSuccess_failures|].
  split; [intros Hst; by rewrite breakerSuccess_state, decide_True|].
  split; [intros Hst; by rewrite breakerSuccess_state, decide_False|].
  split.
  { intros Hst. unfold breakerSuccess. simpl.
    rewrite decide_False by (rewrite Hst; discriminate). by split. }
  destruct (breakerSuccess_frame breaker) as (? & ? & ?).
  repeat split; try done.
  - intros k Hk. by apply recordSuccess_lookup_ne.
  - apply recordSuccess_services.
Qed.

Lemma recordSuccess_resets_count_witness :
  circuitBreakers trippedRegistry !! "item-service"%string
  = Some {| state := open; failures := 3; threshold := 3;
            timeout := 60000; lastFailure := 5000 |}
  ∧ ∃ breaker',
      circuitBreakers (recordSuccess "item-service" trippedRegistry)
        !! "item-service"%string = Some breaker'
      ∧ failures breaker' = 0
      ∧ state breaker' = open.
Proof.
  split; [vm_compute; reflexivity|].
  destruct (recordSuccess_resets_count "item-service" trippedRegistry
              {| state := open; failures := 3; threshold := 3;
                 timeout := 60000; lastFailure := 5000 |})
    as (b' & Hb' & Hf & _ & _ & Hopen & _); [vm_compute; reflexivity|].
  exists b'. split; [exact Hb'|]. split; [exact Hf|].
  by apply Hopen.
Defined.

(** ** Removal *)

(** C5.  [unregisterService] returns [true] exactly when the table has an
    entry under the name.  In that case neither map holds the name
    afterwards, every other name keeps its entry and its breaker, and a
    successful write leaves the remaining entries in the file.  On an
    unknown name the result is [false] and the whole registry state,
    the file content and the count of writes included, is the one
    before the call. *)
Theorem unregisterService_result (name0 : string) (writeOk : bool)
  (r : ServiceRegistry) :
  let result := unregisterService name0 writeOk r in
  (result.1 = true ↔ is_Some (JsMap.get name0 (services r)))
  ∧ (is_Some (JsMap.get name0 (services r)) →
     JsMap.get name0 (services result.2) = None
     ∧ circuitBreakers result.2 !! name0 = None
     ∧ (∀ k, k ≠ name0 →
             JsMap.get k (services result.2) = JsMap.get k (services r)
             ∧ circuitBreakers result.2 !! k = circuitBreakers r !! k)
     ∧ (writeOk = true →
        snapshot result.2 = Some (getAllServices result.2)))
  ∧ (JsMap.get name0 (services r) = None → result = (false, r)).
Proof.
  intros result. subst result. unfold unregisterService.
  pose proof (jsmap_has_get name0 (services r)) as Hhas.
  destruct (JsMap.has name0 (services r)) eqn:Hh.
  - assert (is_Some (JsMap.get name0 (services r))) as Hsome by by apply Hhas.
    split; [done|]. split.
    + intros _. destruct writeOk; simpl;
        (split; [apply jsmap_get_delete_eq|]);
        (split; [apply lookup_delete_eq|]);
        (split; [|done]); intros k Hk;
        (split; [by apply jsmap_get_delete_ne | by apply lookup_delete_ne]).
    + intros Hnone. rewrite Hnone in Hsome. by destruct Hsome.
  - split; [|split].
    + split; [done|]. intros Hsome. apply Hhas in Hsome. done.
    + intros Hsome. apply Hhas in Hsome. done.
    + done.
Qed.

Lemma unregisterService_result_witness :
  JsMap.get "user-service" (services itemRegistry) = None
  ∧ unregisterService "user-service" true itemRegistry
    = (false, itemRegistry).
Proof.
  split; [reflexivity|].
  destruct (unregisterService_result "user-service" true itemRegistry)
    as (_ & _ & Hunknown).
  apply Hunknown. reflexivity.
Defined.

(** ** The two maps stay paired *)

Section Pairing.
Implicit Types (r : ServiceRegistry).

Lemma paired_new file : paired (newServiceRegistry file).
Proof.
  intros k. simpl. rewrite lookup_empty. split; intros [? ?]; done.
Qed.

Lemma paired_same_maps r r' :
  services r' = services r →
  circuitBreakers r' = circuitBreakers r →
  paired r → paired r'.
Proof. intros Hs Hb H k. rewrite Hs, Hb. apply H. Qed.

Lemma paired_saveRegistry writeOk r : paired r → paired (saveRegistry writeOk r).
Proof. destruct writeOk; [|done]. by apply paired_same_maps. Qed.

(** Storing an entry and creating its breaker, as [registerService] and
    the callback of [initialize] do. *)
Lemma paired_set_init k service r :
  paired r →
  paired (initCircuitBreaker k
            (with_services (JsMap.set k service (services r)) r)).
Proof.
  intros H k'. simpl. destruct (decide (k = k')) as [->|Hne].
  - rewrite jsmap_get_set_eq, lookup_insert_eq. split; by eexists.
  - rewrite jsmap_get_set_ne, lookup_insert_ne by done. apply H.
Qed.

(** Replacing the breaker of a name that has one. *)
Lemma paired_update_breaker k b r :
  is_Some (circuitBreakers r !! k) →
  paired r →
  paired (with_circuitBreakers (<[k := b]> (circuitBreakers r)) r).
Proof.
  intros Hk H k'. simpl. destruct (decide (k = k')) as [->|Hne].
  - rewrite lookup_insert_eq. rewrite (H k'). split; [by eexists | done].
  - rewrite lookup_insert_ne by done. apply H.
Qed.

Lemma paired_loadService r service : paired r → paired (loadService r service).
Proof. apply paired_set_init. Qed.

Lemma paired_initialize r : paired r → paired (initialize r).
Proof.
  intros H. unfold initialize, startHealthChecks.
  eapply paired_same_maps; [reflexivity | reflexivity |].
  destruct (snapshot r) as [loaded|]; [|done].
  revert r H. induction loaded as [|service loaded IH]; intros r H; [done|].
  simpl. apply IH. by apply paired_loadService.
Qed.

Lemma paired_registerService name0 url0 metadata0 now writeOk r :
  paired r →
  paired (registerService name0 url0 metadata0 now writeOk r).2.
Proof.
  intros H. unfold registerService. simpl.
  apply paired_saveRegistry. by apply paired_set_init.
Qed.

Lemma paired_unregisterService name0 writeOk r :
  paired r → paired (unregisterService name0 writeOk r).2.
Proof.
  intros H. unfold unregisterService.
  destruct (JsMap.has name0 (services r)); [|done].
  simpl. apply paired_saveRegistry. intros k. simpl.
  destruct (decide (name0 = k)) as [->|Hne].
  - rewrite jsmap_get_delete_eq, lookup_delete_eq. done.
  - rewrite jsmap_get_delete_ne, lookup_delete_ne by done. apply H.
Qed.

Lemma paired_getService name0 now r :
  paired r → paired (getService name0 now r).2.
Proof.
  intros H. unfold getService.
  destruct (JsMap.get name0 (services r)); [|done].
  destruct (circuitBreakers r !! name0) as [b|] eqn:Hb; [|done].
  case_decide; [|done]. destruct (_ <? _); [|done]. simpl.
  apply paired_update_breaker; [by rewrite Hb | done].
Qed.

Lemma paired_recordSuccess serviceName r :
  paired r → paired (recordSuccess serviceName r).
Proof.
  intros H. unfold recordSuccess.
  destruct (circuitBreakers r !! serviceName) as [b|] eqn:Hb; [|done].
  apply paired_update_breaker; [by rewrite Hb | done].
Qed.

Lemma paired_recordFailure serviceName now r :
  paired r → paired (recordFailure serviceName now r).
Proof.
  intros H. unfold recordFailure.
  destruct (circuitBreakers r !! serviceName) as [b|] eqn:Hb; [|done].
  apply paired_update_breaker; [by rewrite Hb | done].
Qed.
End Pairing.

(** C9.  A registry whose table and breaker map hold the same names
    still does after [initialize] (whatever snapshot it loads),
    [registerService], [unregisterService], [getService],
    [recordSuccess] and [recordFailure]; the registry the constructor
    builds is such a registry. *)
Theorem paired_preserved (r : ServiceRegistry) :
  paired r →
  paired (initialize r)
  ∧ (∀ name0 url0 metadata0 now writeOk,
       paired (registerService name0 url0 metadata0 now writeOk r).2)
  ∧ (∀ name0 writeOk, paired (unregisterService name0 writeOk r).2)
  ∧ (∀ name0 now, paired (getService name0 now r).2)
  ∧ (∀ serviceName, paired (recordSuccess serviceName r))
  ∧ (∀ serviceName now, paired (recordFailure serviceName now r))
  ∧ (∀ file, paired (newServiceRegistry file)).
Proof.
  intros H. split; [by apply paired_initialize|].
  split; [intros; by apply paired_registerService|].
  split; [intros; by apply paired_unregisterService|].
  split; [intros; by apply paired_getService|].
  split; [intros; by apply paired_recordSuccess|].
  split; [intros; by apply paired_recordFailure|].
  apply paired_new.
Qed.

Lemma paired_preserved_witness :
  paired (newServiceRegistry (snapshot trippedRegistry))
  ∧ paired (initialize (newServiceRegistry (snapshot trippedRegistry)))
  ∧ paired (unregisterService "item-service" true
              (newServiceRegistry (snapshot trippedRegistry))).2.
Proof.
  split; [apply paired_new|].
  destruct (paired_preserved (newServiceRegistry (snapshot trippedRegistry)))
    as (Hinit & _ & Hunreg & _); [apply paired_new|].
  split; [exact Hinit | apply Hunreg].
Defined.


(** ** Registration *)

Section TableFacts.
Implicit Types (m : list (string * ServiceEntry)) (r : ServiceRegistry).

Lemma jsmap_set_set {V : Type} (k : string) (v v' : V) (l : list (string * V)) :
  JsMap.set k v' (JsMap.set k v l) = JsMap.set k v' l.
Proof.
  induction l as [|[k0 v0] l IH]; simpl.
  - by rewrite decide_True.
  - destruct (decide (k = k0)) as [->|Hne]; simpl.
    + by rewrite decide_True.
    + by rewrite decide_False, IH.
Qed.

(** With distinct keys, [set] changes the pair under its key and nothing
    else. *)
Lemma jsmap_elem_set_NoDup {V : Type} (k : string) (v : V) kv
  (l : list (string * V)) :
  NoDup (JsMap.keys l) →
  kv ∈ JsMap.set k v l ↔ kv = (k, v) ∨ (kv ∈ l ∧ kv.1 ≠ k).
Proof.
  unfold JsMap.keys. induction l as [|[k0 v0] l IH]; simpl.
  - intros _. rewrite list_elem_of_singleton. split; [by left|].
    intros [?|[H _]]; [done | by apply elem_of_nil in H].
  - rewrite NoDup_cons. intros [Hk Hnd].
    destruct (decide (k = k0)) as [->|Hne].
    + rewrite !elem_of_cons. split.
      * intros [->|Hin]; [by left|]. right. split; [by right|].
        intros Heq. apply Hk. apply list_elem_of_fmap. exists kv.
        by rewrite <- Heq.
      * intros [->|[[->|Hin] Hneq]]; [by left | done | by right].
    + rewrite !elem_of_cons, (IH Hnd). split.
      * intros [->|[->|[Hin Hneq]]].
        -- right. split; [by left | simpl; congruence].
        -- by left.
        -- right. split; [by right | done].
      * intros [->|[[->|Hin] Hneq]].
        -- right; by left.
        -- by left.
        -- right; right. by split.
Qed.

Lemma tableWf_nil : tableWf [].
Proof. split; [apply NoDup_nil_2 | apply Forall_nil_2]. Qed.

Lemma tableWf_set k service m :
  name service = k → tableWf m → tableWf (JsMap.set k service m).
Proof.
  intros Hname [Hnd Hall]. split; [by apply jsmap_NoDup_set|].
  apply Forall_forall. intros kv Hin.
  apply (jsmap_elem_set_NoDup k service kv m Hnd) in Hin
    as [->|[Hin _]]; [done|].
  by apply (proj1 (Forall_forall _ _) Hall).
Qed.

Lemma tableWf_delete k m : tableWf m → tableWf (JsMap.delete k m).
Proof.
  intros [Hnd Hall]. split; [by apply jsmap_NoDup_delete|].
  apply Forall_forall. intros kv [Hin _]%jsmap_elem_delete.
  by apply (proj1 (Forall_forall _ _) Hall).
Qed.

(** In a well-formed table a name labels one entry when the table has
    the key, and none otherwise. *)
Lemma countNamed_tableWf n m :
  tableWf m →
  countNamed n (JsMap.values m) = if JsMap.has n m then 1%nat else 0%nat.
Proof.
  unfold countNamed, JsMap.values, JsMap.has, tableWf, JsMap.keys.
  induction m as [|[k e] m IH]; simpl; [done|].
  rewrite NoDup_cons, Forall_cons. simpl. intros [[Hk Hnd] [Hname Hall]].
  specialize (IH (conj Hnd Hall)). subst k.
  destruct (decide (n = name e)) as [->|Hne].
  - rewrite bool_decide_true by done.
    apply (jsmap_get_None (name e) m) in Hk. rewrite Hk in IH.
    simpl. f_equal. exact IH.
  - rewrite bool_decide_false by congruence. exact IH.
Qed.

Lemma saveRegistry_maps writeOk r :
  services (saveRegistry writeOk r) = services r
  ∧ circuitBreakers (saveRegistry writeOk r) = circuitBreakers r.
Proof. by destruct writeOk. Qed.

Lemma registerService_services name0 url0 metadata0 now writeOk r :
  services (registerService name0 url0 metadata0 now writeOk r).2
  = JsMap.set name0 (registerService name0 url0 metadata0 now writeOk r).1
      (services r).
Proof. unfold registerService. simpl. by destruct writeOk. Qed.

Lemma registerService_circuitBreakers name0 url0 metadata0 now writeOk r :
  circuitBreakers (registerService name0 url0 metadata0 now writeOk r).2
  = <[name0 := newCircuitBreaker]> (circuitBreakers r).
Proof. unfold registerService. simpl. by destruct writeOk. Qed.

Lemma registerService_snapshot name0 url0 metadata0 now writeOk r :
  snapshot (registerService name0 url0 metadata0 now writeOk r).2
  = if writeOk
    then Some (getAllServices
                 (registerService name0 url0 metadata0 now writeOk r).2)
    else snapshot r.
Proof. unfold registerService. simpl. by destruct writeOk. Qed.
End TableFacts.

(** C4.  On a registry whose table is well formed, [registerService]
    returns the entry it stores: the given name, address and metadata,
    status healthy, [registeredAt] and [lastHealthCheck] equal to [now],
    [failureCount] 0, no [lastError].  Afterwards the table holds that
    entry under the name and exactly one entry with that name, and the
    breaker of the name is the closed one with a count of 0, whatever
    entry and breaker the name had before; the other names keep theirs.
    Registering the same name, address and metadata again gives the
    table and breaker map of a single call made at the time of the
    second one; made at the same [now], it leaves table, breaker map and
    a successfully written file as they are. *)
Theorem registerService_upsert (name0 url0 : string) (metadata0 : Metadata)
  (now : Z) (writeOk : bool) (r : ServiceRegistry) :
  tableWf (services r) →
  let service := (registerService name0 url0 metadata0 now writeOk r).1 in
  let r' := (registerService name0 url0 metadata0 now writeOk r).2 in
  service = {| name := name0; url := url0; metadata := metadata0;
               status := healthy; registeredAt := now;
               lastHealthCheck := now; failureCount := 0;
               lastError := None |}
  ∧ JsMap.get name0 (services r') = Some service
  ∧ countNamed name0 (getAllServices r') = 1%nat
  ∧ tableWf (services r')
  ∧ circuitBreakers r' !! name0
    = Some {| state := closed; failures := 0; threshold := 3;
              timeout := 60000; lastFailure := 0 |}
  ∧ (∀ k, k ≠ name0 →
          JsMap.get k (services r') = JsMap.get k (services r)
          ∧ circuitBreakers r' !! k = circuitBreakers r !! k)
  ∧ (∀ now' writeOk',
       let once := (registerService name0 url0 metadata0 now' writeOk' r).2 in
       let twice := (registerService name0 url0 metadata0 now' writeOk' r').2 in
       services twice = services once
       ∧ circuitBreakers twice = circuitBreakers once)
  ∧ (∀ writeOk',
       let twice := (registerService name0 url0 metadata0 now writeOk' r').2 in
       services twice = services r'
       ∧ circuitBreakers twice = circuitBreakers r'
       ∧ (writeOk = true → snapshot twice = snapshot r')).
Proof.
  intros Hwf service r'. subst service r'.
  assert (tableWf (services
            (registerService name0 url0 metadata0 now writeOk r).2)) as Hwf'.
  { rewrite registerService_services. by apply tableWf_set. }
  split; [done|].
  split; [by rewrite registerService_services, jsmap_get_set_eq|].
  split.
  { unfold getAllServices. rewrite countNamed_tableWf by done.
    unfold JsMap.has.
    by rewrite registerService_services, jsmap_get_set_eq. }
  split; [done|].
  split; [by rewrite registerService_circuitBreakers, lookup_insert_eq|].
  split.
  { intros k Hk. rewrite registerService_services,
      registerService_circuitBreakers.
    by rewrite jsmap_get_set_ne, lookup_insert_ne. }
  split.
  - intros now' writeOk'. cbv zeta.
    rewrite !registerService_services, !registerService_circuitBreakers.
    simpl. by rewrite jsmap_set_set, insert_insert_eq.
  - intros writeOk'. cbv zeta.
    assert (services
              (registerService name0 url0 metadata0 now writeOk'
                 (registerService name0 url0 metadata0 now writeOk r).2).2
            = services (registerService name0 url0 metadata0 now writeOk r).2)
      as Hsame.
    { rewrite !registerService_services. simpl. by rewrite jsmap_set_set. }
    split; [exact Hsame|].
    split.
    { rewrite !registerService_circuitBreakers. by rewrite insert_insert_eq. }
    intros ->. rewrite !registerService_snapshot.
    destruct writeOk'; [|done].
    unfold getAllServices. by rewrite Hsame.
Qed.

Lemma registerService_upsert_witness :
  tableWf (services trippedRegistry)
  ∧ countNamed "item-service"
      (getAllServices
         (registerService "item-service" "http://localhost:3002"
            itemMetadata 80000 true trippedRegistry).2) = 1%nat
  ∧ circuitBreakers
      (registerService "item-service" "http://localhost:3002"
         itemMetadata 80000 true trippedRegistry).2 !! "item-service"%string
    = Some {| state := closed; failures := 0; threshold := 3;
              timeout := 60000; lastFailure := 0 |}.
Proof.
  assert (tableWf (services trippedRegistry)) as Hwf.
  { split.
    - apply NoDup_cons. split; [apply not_elem_of_nil | apply NoDup_nil_2].
    - apply Forall_cons. split; [reflexivity | apply Forall_nil_2]. }
  split; [exact Hwf|].
  destruct (registerService_upsert "item-service" "http://localhost:3002"
              itemMetadata 80000 true trippedRegistry Hwf)
    as (_ & _ & Hcount & _ & Hbreaker & _).
  split; [exact Hcount | exact Hbreaker].
Defined.


(** ** Selection and discovery *)

Section SelectionFacts.
Implicit Types (r : ServiceRegistry) (service : ServiceEntry).

(** [String.prefix] is [startsWith]. *)
Lemma prefix_starts_with (p s : string) :
  String.prefix p s = true ↔ ∃ rest, s = (p ++ rest)%string.
Proof.
  revert s. induction p as [|a p IH]; intros [|b s]; simpl.
  - split; [intros _; by exists EmptyString | done].
  - split; [intros _; by exists (String b s) | done].
  - split; [done | intros [rest Hrest]; discriminate].
  - destruct (Ascii.ascii_dec a b) as [->|Hne].
    + rewrite IH. split.
      * intros [rest ->]. by exists rest.
      * intros [rest Hrest]. exists rest. by injection Hrest.
    + split; [done | intros [rest Hrest]]. by injection Hrest.
Qed.

Lemma isHealthy_true service : isHealthy service = true ↔ status service = healthy.
Proof. unfold isHealthy. apply bool_decide_eq_true. Qed.

Lemma hasTag_true tag service :
  hasTag tag service = true
  ↔ ∃ ts, tags (metadata service) = Some ts ∧ tag ∈ ts.
Proof.
  unfold hasTag. destruct (tags (metadata service)) as [ts|].
  - rewrite bool_decide_eq_true. split; [by exists ts|].
    by intros (ts' & [= <-] & ?).
  - split; [done | by intros (? & ? & _)].
Qed.

Lemma elem_of_filter_bool {A : Type} (f : A → bool) (x : A) (l : list A) :
  x ∈ List.filter f l ↔ x ∈ l ∧ f x = true.
Proof. rewrite !list_elem_of_In. apply filter_In. Qed.

Lemma balancingCandidates_elem serviceName r service :
  service ∈ balancingCandidates serviceName r
  ↔ service ∈ getAllServices r
    ∧ (∃ rest, name service = (serviceName ++ rest)%string)
    ∧ status service = healthy.
Proof.
  unfold balancingCandidates, getAllServices.
  rewrite elem_of_filter_bool, andb_true_iff.
  by rewrite prefix_starts_with, isHealthy_true.
Qed.

Lemma findServicesByTag_elem tag r service :
  service ∈ findServicesByTag tag r
  ↔ service ∈ getAllServices r
    ∧ (∃ ts, tags (metadata service) = Some ts ∧ tag ∈ ts)
    ∧ status service = healthy.
Proof.
  unfold findServicesByTag, getAllServices.
  rewrite !elem_of_filter_bool, hasTag_true, isHealthy_true. tauto.
Qed.

Lemma arrayAt_elem {A : Type} (l : list A) (index : Z) (x : A) :
  arrayAt l index = Some x → x ∈ l.
Proof.
  unfold arrayAt. destruct (index <? 0); [done|].
  apply list_elem_of_lookup_2.
Qed.

Lemma jsmap_keys_set_present {V : Type} (k : string) (v : V)
  (l : list (string * V)) :
  is_Some (JsMap.get k l) → JsMap.keys (JsMap.set k v l) = JsMap.keys l.
Proof.
  unfold JsMap.keys. induction l as [|[k0 v0] l IH]; simpl.
  - by intros [? ?].
  - destruct (decide (k = k0)) as [->|Hne]; simpl; [done|].
    intros H. f_equal. by apply IH.
Qed.

(** A failed probe rewrites the entry under its key and touches no other
    entry. *)
Lemma performHealthCheck_error_services message now key r service :
  JsMap.get key (services r) = Some service →
  services (performHealthCheck (ProbeError message) now key r).2
  = JsMap.set key (probedUnhealthy message service) (services r).
Proof.
  intros H. unfold performHealthCheck. rewrite H. simpl.
  by rewrite recordFailure_services.
Qed.

Lemma tableWf_entry_name key service (m : list (string * ServiceEntry)) :
  tableWf m → (key, service) ∈ m → name service = key.
Proof.
  intros [_ Hall] Hin. by apply (proj1 (Forall_forall _ _) Hall) in Hin.
Qed.

(** Entries of a well-formed table after the entry under [key] has been
    replaced by one of the same name. *)
Lemma values_set_tableWf key service' (m : list (string * ServiceEntry)) e :
  tableWf m → name service' = key →
  e ∈ JsMap.values (JsMap.set key service' m)
  ↔ e = service' ∨ (e ∈ JsMap.values m ∧ name e ≠ key).
Proof.
  intros Hwf Hname. unfold JsMap.values. rewrite !list_elem_of_fmap. split.
  - intros ([k e'] & -> & Hin). simpl.
    apply (jsmap_elem_set_NoDup key service' _ m (proj1 Hwf)) in Hin
      as [[= -> ->]|[Hin Hne]]; [by left|].
    right. simpl in Hne. split; [by exists (k, e')|].
    by rewrite (tableWf_entry_name k e' m Hwf Hin).
  - intros [->|[([k e'] & -> & Hin) Hne]].
    + exists (key, service'). split; [done|].
      apply (jsmap_elem_set_NoDup key service' _ m (proj1 Hwf)). by left.
    + exists (k, e'). split; [done|].
      apply (jsmap_elem_set_NoDup key service' _ m (proj1 Hwf)). right.
      split; [done|]. simpl in *.
      by rewrite <- (tableWf_entry_name k e' m Hwf Hin).
Qed.
End SelectionFacts.

(** C6.  The candidates of [getServiceWithLoadBalancing] are exactly the
    entries of the table whose name starts with the prefix and whose
    status is healthy.  Without candidates the result is [null]; with
    candidates, at a clock value that is not negative, it is the
    candidate at index [floor(now / 1000) mod count].  Whatever it
    returns is a candidate, hence healthy, and two calls on the same
    table whose clock values fall in the same second return the same
    pick. *)
Theorem getServiceWithLoadBalancing_pick (serviceName : string) (now : Z)
  (r : ServiceRegistry) :
  let candidates := balancingCandidates serviceName r in
  let pick := getServiceWithLoadBalancing serviceName now r in
  (∀ service,
     service ∈ candidates
     ↔ service ∈ getAllServices r
       ∧ (∃ rest, name service = (serviceName ++ rest)%string)
       ∧ status service = healthy)
  ∧ (candidates = [] → pick = None)
  ∧ (candidates ≠ [] → 0 ≤ now →
     is_Some pick
     ∧ pick = candidates
              !! Z.to_nat ((now / 1000) mod Z.of_nat (List.length candidates)))
  ∧ (∀ service, pick = Some service →
                service ∈ candidates ∧ status service = healthy)
  ∧ (∀ now', now' / 1000 = now / 1000 →
             getServiceWithLoadBalancing serviceName now' r = pick).
Proof.
  intros candidates pick.
  split; [intros service; apply balancingCandidates_elem|].
  split.
  { intros Hnil. subst pick. unfold getServiceWithLoadBalancing.
    fold candidates. by rewrite Hnil. }
  split.
  { intros Hne Hnow. subst pick. unfold getServiceWithLoadBalancing.
    fold candidates.
    assert (0 < Z.of_nat (List.length candidates)) as Hlen
      by (destruct candidates; [done | simpl; lia]).
    destruct (Nat.eqb_spec (List.length candidates) 0) as [Hz|_]; [lia|].
    assert (0 ≤ now / 1000) as Hsec by (apply Z.div_pos; lia).
    rewrite Z.rem_mod_nonneg by lia.
    pose proof (Z.mod_pos_bound (now / 1000)
                  (Z.of_nat (List.length candidates)) Hlen) as Hbound.
    unfold arrayAt.
    destruct (Z.ltb_spec ((now / 1000) mod Z.of_nat (List.length candidates)) 0);
      [lia|].
    split; [|done]. apply lookup_lt_is_Some. lia. }
  split.
  { intros service Hpick. subst pick.
    unfold getServiceWithLoadBalancing in Hpick. fold candidates in Hpick.
    destruct (List.length candidates =? 0)%nat; [done|].
    apply arrayAt_elem in Hpick. split; [done|].
    by apply balancingCandidates_elem in Hpick as (_ & _ & ?). }
  intros now' Hsame. subst pick. unfold getServiceWithLoadBalancing.
  by rewrite Hsame.
Qed.

Lemma getServiceWithLoadBalancing_pick_witness :
  (balancingCandidates "svc" svcRegistry ≠ [] ∧ 0 ≤ 37500)
  ∧ is_Some (getServiceWithLoadBalancing "svc" 37500 svcRegistry)
  ∧ getServiceWithLoadBalancing "svc" 37500 svcRegistry
    = balancingCandidates "svc" svcRegistry
      !! Z.to_nat ((37500 / 1000)
                   mod Z.of_nat (List.length
                                   (balancingCandidates "svc" svcRegistry)))
  ∧ name <$> getServiceWithLoadBalancing "svc" 37500 svcRegistry
    = Some "svc-c"%string
  ∧ name <$> balancingCandidates "svc" svcRegistry
    = ["svc-a"%string; "svc-c"%string].
Proof.
  split; [split; [vm_compute; discriminate | lia]|].
  destruct (getServiceWithLoadBalancing_pick "svc" 37500 svcRegistry)
    as (_ & _ & Hpick & _).
  destruct Hpick as [Hsome Heq]; [vm_compute; discriminate | lia |].
  split; [exact Hsome|]. split; [exact Heq|].
  split; vm_compute; reflexivity.
Defined.

(** C7.  [findServicesByTag] returns exactly the entries of the table
    whose metadata tags contain the tag and whose status is healthy.
    So when a failed probe marks one of the returned entries unhealthy,
    the result afterwards is the result before without the entry of
    that name, while [getAllServices] still holds an entry under that
    name, now unhealthy, and the table has the same keys as before. *)
Theorem findServicesByTag_healthy_only (tag : string) (r : ServiceRegistry) :
  (∀ service,
     service ∈ findServicesByTag tag r
     ↔ service ∈ getAllServices r
       ∧ (∃ ts, tags (metadata service) = Some ts ∧ tag ∈ ts)
       ∧ status service = healthy)
  ∧ (∀ key service message now,
       tableWf (services r) →
       JsMap.get key (services r) = Some service →
       service ∈ findServicesByTag tag r →
       let r' := (performHealthCheck (ProbeError message) now key r).2 in
       (∀ e, e ∈ findServicesByTag tag r'
             ↔ e ∈ findServicesByTag tag r ∧ name e ≠ key)
       ∧ name service = key
       ∧ (∃ e, e ∈ getAllServices r'
               ∧ JsMap.get key (services r') = Some e
               ∧ name e = key ∧ status e = unhealthy)
       ∧ JsMap.keys (services r') = JsMap.keys (services r)).
Proof.
  split; [intros service; apply findServicesByTag_elem|].
  intros key service message now Hwf Hget Hfound r'.
  pose proof (performHealthCheck_error_services message now key r service Hget)
    as Hservices. fold r' in Hservices.
  assert (name service = key) as Hname
    by (eapply tableWf_entry_name; [done | by apply jsmap_get_Some_elem]).
  split.
  { intros e. rewrite !findServicesByTag_elem. unfold getAllServices.
    rewrite Hservices.
    rewrite (values_set_tableWf key (probedUnhealthy message service)
               (services r) e Hwf Hname).
    split.
    - intros ([->|[Hin Hne]] & Htag & Hst); [done | by repeat split].
    - intros ((Hin & Htag & Hst) & Hne). split; [by right | by split]. }
  split; [done|]. split.
  - exists (probedUnhealthy message service). unfold getAllServices.
    rewrite Hservices. split.
    + apply (values_set_tableWf key (probedUnhealthy message service)
               (services r) _ Hwf Hname). by left.
    + by rewrite jsmap_get_set_eq.
  - rewrite Hservices. apply jsmap_keys_set_present. by rewrite Hget.
Qed.

Lemma findServicesByTag_healthy_only_witness :
  (tableWf (services itemRegistry)
   ∧ List.length (findServicesByTag "items" itemRegistry) = 1%nat)
  ∧ (∀ e, e ∈ findServicesByTag "items" probedItemRegistry
          ↔ e ∈ findServicesByTag "items" itemRegistry
            ∧ name e ≠ "item-service"%string)
  ∧ findServicesByTag "items" probedItemRegistry = []
  ∧ name <$> getAllServices probedItemRegistry = ["item-service"%string].
Proof.
  assert (tableWf (services itemRegistry)) as Hwf.
  { split.
    - apply NoDup_cons. split; [apply not_elem_of_nil | apply NoDup_nil_2].
    - apply Forall_cons. split; [reflexivity | apply Forall_nil_2]. }
  split; [split; [exact Hwf | reflexivity]|].
  destruct (findServicesByTag_healthy_only "items" itemRegistry)
    as [_ Hflip].
  destruct (Hflip "item-service"%string itemEntry
              "connect ECONNREFUSED"%string 31000 Hwf) as (Hloses & _);
    [vm_compute; reflexivity | vm_compute; left |].
  split; [exact Hloses|]. split; vm_compute; reflexivity.
Defined.


(** ** Invariants kept by every method *)

Section Invariants.
Implicit Types (r : ServiceRegistry) (b : CircuitBreaker).

Lemma foldl_preserves {A B : Type} (P : A → Prop) (step : A → B → A)
  (l : list B) (a : A) :
  (∀ a x, P a → P (step a x)) → P a → P (foldl step a l).
Proof.
  intros Hstep. revert a. induction l as [|x l IH]; intros a Ha; [done|].
  simpl. apply IH. by apply Hstep.
Qed.

Lemma saveRegistry_fields writeOk r :
  services (saveRegistry writeOk r) = services r
  ∧ circuitBreakers (saveRegistry writeOk r) = circuitBreakers r
  ∧ healthCheckTimer (saveRegistry writeOk r) = healthCheckTimer r
  ∧ snapshot (saveRegistry writeOk r)
    = (if writeOk then Some (getAllServices r) else snapshot r).
Proof. by destruct writeOk. Qed.

Lemma getService_services name0 now r :
  services (getService name0 now r).2 = services r.
Proof.
  unfold getService. destruct (JsMap.get name0 (services r)); [|done].
  destruct (circuitBreakers r !! name0); [|done].
  case_decide; [|done]. by destruct (_ <? _).
Qed.

Lemma performHealthCheck_services probe now key r :
  services (performHealthCheck probe now key r).2
  = match JsMap.get key (services r) with
    | Some service =>
        JsMap.set key (probedEntry (probe, now) service) (services r)
    | None => services r
    end
  ∨ (probe = ProbeOtherStatus
     ∧ services (performHealthCheck probe now key r).2 = services r).
Proof.
  unfold performHealthCheck. destruct (JsMap.get key (services r)); [|by left].
  destruct probe; simpl.
  - left. by rewrite recordSuccess_services.
  - by right.
  - left. by rewrite recordFailure_services.
Qed.

Lemma tableWf_performHealthCheck probe now key r :
  tableWf (services r) →
  tableWf (services (performHealthCheck probe now key r).2).
Proof.
  intros Hwf.
  destruct (performHealthCheck_services probe now key r) as [->|[_ ->]];
    [|done].
  destruct (JsMap.get key (services r)) as [service|] eqn:Hget; [|done].
  apply tableWf_set; [|done].
  transitivity (name service); [by destruct probe|].
  eapply tableWf_entry_name; [done | by apply jsmap_get_Some_elem].
Qed.

Lemma tableWf_initialize r :
  tableWf (services r) → tableWf (services (initialize r)).
Proof.
  intros Hwf. unfold initialize, startHealthChecks. simpl.
  destruct (snapshot r) as [loaded|]; [|done].
  apply (foldl_preserves (λ r, tableWf (services r))); [|done].
  intros a service Ha. simpl. by apply tableWf_set.
Qed.

Lemma tableWf_healthSweep probe writeOk r :
  tableWf (services r) → tableWf (services (healthSweep probe writeOk r)).
Proof.
  intros Hwf. unfold healthSweep.
  destruct (saveRegistry_fields writeOk
              (foldl (λ r key, (performHealthCheck (probe key).1
                                  (probe key).2 key r).2)
                 r (JsMap.keys (services r)))) as (-> & _).
  apply (foldl_preserves (λ r, tableWf (services r))); [|done].
  intros a key Ha. by apply tableWf_performHealthCheck.
Qed.

Lemma breakerOk_new : breakerOk newCircuitBreaker.
Proof. repeat split; simpl; lia. Qed.

Lemma breakerOk_success b : breakerOk b → breakerOk (breakerSuccess b).
Proof.
  intros (Hth & Hto & Hf & Hcl).
  destruct (breakerSuccess_frame b) as (Hth' & Hto' & _).
  pose proof (breakerSuccess_failures b) as Hf'.
  repeat split; try congruence; lia.
Qed.

Lemma breakerOk_failure now b : breakerOk b → breakerOk (breakerFailure now b).
Proof.
  intros (Hth & Hto & Hf & Hcl).
  destruct (breakerFailure_fields now b) as (Hf' & _ & Hth' & Hto').
  repeat split; try congruence; try lia.
  intros Hst. destruct (Z_lt_le_dec (failures b + 1) (threshold b)); [lia|].
  rewrite breakerFailure_trips in Hst by done. discriminate.
Qed.

Lemma breakerOk_half_open b : breakerOk b → breakerOk (with_state half_open b).
Proof. intros (Hth & Hto & Hf & _). by repeat split. Qed.

Lemma breakersOk_same r r' :
  circuitBreakers r' = circuitBreakers r → breakersOk r → breakersOk r'.
Proof. intros Heq H k b. rewrite Heq. apply H. Qed.

Lemma breakersOk_insert k b r :
  breakerOk b → breakersOk r →
  breakersOk (with_circuitBreakers (<[k := b]> (circuitBreakers r)) r).
Proof.
  intros Hb H k' b'. simpl. destruct (decide (k = k')) as [->|Hne].
  - rewrite lookup_insert_eq. by intros [= <-].
  - rewrite lookup_insert_ne by done. apply H.
Qed.

Lemma breakersOk_recordSuccess serviceName r :
  breakersOk r → breakersOk (recordSuccess serviceName r).
Proof.
  intros H. unfold recordSuccess.
  destruct (circuitBreakers r !! serviceName) as [b|] eqn:Hb; [|done].
  apply breakersOk_insert; [|done]. apply breakerOk_success. by eapply H.
Qed.

Lemma breakersOk_recordFailure serviceName now r :
  breakersOk r → breakersOk (recordFailure serviceName now r).
Proof.
  intros H. unfold recordFailure.
  destruct (circuitBreakers r !! serviceName) as [b|] eqn:Hb; [|done].
  apply breakersOk_insert; [|done]. apply breakerOk_failure. by eapply H.
Qed.

Lemma breakersOk_getService name0 now r :
  breakersOk r → breakersOk (getService name0 now r).2.
Proof.
  intros H. unfold getService.
  destruct (JsMap.get name0 (services r)); [|done].
  destruct (circuitBreakers r !! name0) as [b|] eqn:Hb; [|done].
  case_decide; [|done]. destruct (_ <? _); [|done]. simpl.
  apply breakersOk_insert; [|done]. apply breakerOk_half_open. by eapply H.
Qed.

Lemma breakersOk_loadService r service :
  breakersOk r → breakersOk (loadService r service).
Proof.
  intros H. unfold loadService, initCircuitBreaker.
  apply (breakersOk_insert (name service) newCircuitBreaker
           (with_services _ r)); [apply breakerOk_new | done].
Qed.

Lemma breakersOk_initialize r : breakersOk r → breakersOk (initialize r).
Proof.
  intros H. unfold initialize, startHealthChecks.
  eapply breakersOk_same; [reflexivity|].
  destruct (snapshot r) as [loaded|]; [|done].
  apply (foldl_preserves breakersOk); [|done].
  intros a service Ha. by apply breakersOk_loadService.
Qed.

Lemma breakersOk_registerService name0 url0 metadata0 now writeOk r :
  breakersOk r →
  breakersOk (registerService name0 url0 metadata0 now writeOk r).2.
Proof.
  intros H k b. rewrite registerService_circuitBreakers.
  destruct (decide (name0 = k)) as [->|Hne].
  - rewrite lookup_insert_eq. intros [= <-]. apply breakerOk_new.
  - rewrite lookup_insert_ne by done. apply H.
Qed.

Lemma breakersOk_unregisterService name0 writeOk r :
  breakersOk r → breakersOk (unregisterService name0 writeOk r).2.
Proof.
  intros H. unfold unregisterService.
  destruct (JsMap.has name0 (services r)); [|done].
  intros k b. destruct writeOk; simpl;
    (destruct (decide (name0 = k)) as [->|Hne];
     [by rewrite lookup_delete_eq
     | rewrite lookup_delete_ne by done; apply H]).
Qed.

Lemma breakersOk_performHealthCheck probe now key r :
  breakersOk r → breakersOk (performHealthCheck probe now key r).2.
Proof.
  intros H. unfold performHealthCheck.
  destruct (JsMap.get key (services r)); [|done].
  destruct probe; simpl; [|done|].
  - apply breakersOk_recordSuccess. by eapply breakersOk_same.
  - apply breakersOk_recordFailure. by eapply breakersOk_same.
Qed.

Lemma breakersOk_healthSweep probe writeOk r :
  breakersOk r → breakersOk (healthSweep probe writeOk r).
Proof.
  intros H. unfold healthSweep.
  eapply breakersOk_same; [apply saveRegistry_fields|].
  apply (foldl_preserves breakersOk); [|done].
  intros a key Ha. by apply breakersOk_performHealthCheck.
Qed.

Lemma breakersOk_makeServiceRequest serviceName reply now later r :
  breakersOk r →
  breakersOk (makeServiceRequest serviceName reply now later r).2.
Proof.
  intros H. unfold makeServiceRequest.
  pose proof (breakersOk_getService serviceName now r H) as Hg.
  destruct (getService serviceName now r) as [[[service|]|message] r'];
    simpl in *.
  - destruct reply; simpl.
    + by apply breakersOk_recordSuccess.
    + by apply breakersOk_recordFailure.
  - by apply breakersOk_recordFailure.
  - by apply breakersOk_recordFailure.
Qed.
End Invariants.

Section MoreFacts.
Implicit Types (r : ServiceRegistry) (b : CircuitBreaker).

Lemma tableWf_names (m : list (string * ServiceEntry)) :
  tableWf m → name <$> JsMap.values m = JsMap.keys m.
Proof.
  unfold JsMap.values, JsMap.keys. intros [_ Hall].
  induction m as [|[k e] m IH]; [done|].
  apply Forall_cons in Hall as [Hname Hall]. simpl in *.
  f_equal; [done | by apply IH].
Qed.

Lemma makeServiceRequest_services serviceName reply now later r :
  services (makeServiceRequest serviceName reply now later r).2 = services r.
Proof.
  unfold makeServiceRequest.
  pose proof (getService_services serviceName now r) as Hg.
  destruct (getService serviceName now r) as [[[service|]|message] r'];
    simpl in *; [destruct reply; simpl|..];
    by rewrite ?recordSuccess_services, ?recordFailure_services.
Qed.

Lemma paired_performHealthCheck probe now key r :
  paired r → paired (performHealthCheck probe now key r).2.
Proof.
  intros H. unfold performHealthCheck.
  destruct (JsMap.get key (services r)) as [service|] eqn:Hget; [|done].
  assert (∀ e, paired (with_services (JsMap.set key e (services r)) r))
    as Hset.
  { intros e k. simpl. destruct (decide (key = k)) as [->|Hne].
    - rewrite jsmap_get_set_eq, <- (H k), Hget. split; by eexists.
    - rewrite jsmap_get_set_ne by done. apply H. }
  destruct probe; simpl; [|done|].
  - by apply paired_recordSuccess.
  - by apply paired_recordFailure.
Qed.

Lemma paired_healthSweep probe writeOk r :
  paired r → paired (healthSweep probe writeOk r).
Proof.
  intros H. unfold healthSweep. apply paired_saveRegistry.
  apply (foldl_preserves paired); [|done].
  intros a key Ha. by apply paired_performHealthCheck.
Qed.

Lemma paired_makeServiceRequest serviceName reply now later r :
  paired r → paired (makeServiceRequest serviceName reply now later r).2.
Proof.
  intros H. unfold makeServiceRequest.
  pose proof (paired_getService serviceName now r H) as Hg.
  destruct (getService serviceName now r) as [[[service|]|message] r'];
    simpl in *; [destruct reply; simpl|..];
    by first [apply paired_recordSuccess | apply paired_recordFailure].
Qed.

Lemma createDynamicProxy_registry serviceName now r :
  (createDynamicProxy serviceName now r).2 = (getService serviceName now r).2.
Proof.
  unfold createDynamicProxy.
  destruct (getService serviceName now r) as [[[service|]|message] r'];
    simpl; [done..|]. by destruct (includes _ _).
Qed.
End MoreFacts.

(** The running example satisfies the three invariants. *)
Lemma tableWf_trippedRegistry : tableWf (services trippedRegistry).
Proof.
  split.
  - apply NoDup_cons. split; [apply not_elem_of_nil | apply NoDup_nil_2].
  - apply Forall_cons. split; [reflexivity | apply Forall_nil_2].
Qed.

Lemma breakersOk_empty file : breakersOk (newServiceRegistry file).
Proof. intros k b. simpl. by rewrite lookup_empty. Qed.

Lemma breakersOk_trippedRegistry : breakersOk trippedRegistry.
Proof.
  unfold trippedRegistry, recordFailures. simpl.
  do 3 apply breakersOk_recordFailure.
  apply breakersOk_registerService, breakersOk_initialize, breakersOk_empty.
Qed.

Lemma paired_trippedRegistry : paired trippedRegistry.
Proof.
  unfold trippedRegistry, recordFailures. simpl.
  do 3 apply paired_recordFailure.
  apply paired_registerService, paired_initialize, paired_new.
Qed.

(** X4.  A table with distinct keys whose entries sit under their own
    names stays so under every method of the registry, under a health
    sweep and under a gateway request; the constructor builds such a
    table, and [getAllServices] then lists no name twice. *)
Theorem tableWf_preserved (r : ServiceRegistry) :
  tableWf (services r) →
  NoDup (name <$> getAllServices r)
  ∧ tableWf (services (initialize r))
  ∧ (∀ name0 url0 metadata0 now writeOk,
       tableWf (services
                  (registerService name0 url0 metadata0 now writeOk r).2))
  ∧ (∀ name0 writeOk,
       tableWf (services (unregisterService name0 writeOk r).2))
  ∧ (∀ name0 now, tableWf (services (getService name0 now r).2))
  ∧ (∀ serviceName, tableWf (services (recordSuccess serviceName r)))
  ∧ (∀ serviceName now, tableWf (services (recordFailure serviceName now r)))
  ∧ (∀ probe now key,
       tableWf (services (performHealthCheck probe now key r).2))
  ∧ (∀ probe writeOk, tableWf (services (healthSweep probe writeOk r)))
  ∧ (∀ writeOk, tableWf (services (shutdown writeOk r)))
  ∧ (∀ serviceName reply now later,
       tableWf (services
                  (makeServiceRequest serviceName reply now later r).2))
  ∧ (∀ file, tableWf (services (newServiceRegistry file))).
Proof.
  intros Hwf.
  split.
  { unfold getAllServices. rewrite tableWf_names by done. apply Hwf. }
  split; [by apply tableWf_initialize|].
  split.
  { intros. rewrite registerService_services. by apply tableWf_set. }
  split.
  { intros name0 writeOk. unfold unregisterService.
    destruct (JsMap.has name0 (services r)); [|done].
    destruct writeOk; simpl; by apply tableWf_delete. }
  split; [intros; by rewrite getService_services|].
  split; [intros; by rewrite recordSuccess_services|].
  split; [intros; by rewrite recordFailure_services|].
  split; [intros; by apply tableWf_performHealthCheck|].
  split; [intros; by apply tableWf_healthSweep|].
  split; [intros []; done|].
  split; [intros; by rewrite makeServiceRequest_services|].
  intros file. apply tableWf_nil.
Qed.

Lemma tableWf_preserved_witness :
  tableWf (services trippedRegistry)
  ∧ NoDup (name <$> getAllServices trippedRegistry)
  ∧ tableWf (services
               (registerService "user-service" "http://localhost:3001"
                  emptyMetadata 9000 true trippedRegistry).2)
  ∧ tableWf (services
               (healthSweep (λ _, (ProbeError "timeout"%string, 31000)) true
                  trippedRegistry)).
Proof.
  split; [apply tableWf_trippedRegistry|].
  destruct (tableWf_preserved trippedRegistry tableWf_trippedRegistry)
    as (Hnames & _ & Hreg & _ & _ & _ & _ & _ & Hsweep & _).
  split; [exact Hnames|]. split; [apply Hreg | apply Hsweep].
Defined.

(** X5.  If every breaker has threshold 3 and timeout 60000, a count
    that is not negative, and fewer counted failures than the threshold
    whenever it is closed, the same holds after every method of the
    registry, after a health sweep and after a gateway request; it holds
    of the registry the constructor builds. *)
Theorem breakersOk_preserved (r : ServiceRegistry) :
  breakersOk r →
  breakersOk (initialize r)
  ∧ (∀ name0 url0 metadata0 now writeOk,
       breakersOk (registerService name0 url0 metadata0 now writeOk r).2)
  ∧ (∀ name0 writeOk, breakersOk (unregisterService name0 writeOk r).2)
  ∧ (∀ name0 now, breakersOk (getService name0 now r).2)
  ∧ (∀ serviceName, breakersOk (recordSuccess serviceName r))
  ∧ (∀ serviceName now, breakersOk (recordFailure serviceName now r))
  ∧ (∀ probe now key, breakersOk (performHealthCheck probe now key r).2)
  ∧ (∀ probe writeOk, breakersOk (healthSweep probe writeOk r))
  ∧ (∀ serviceName reply now later,
       breakersOk (makeServiceRequest serviceName reply now later r).2)
  ∧ (∀ file, breakersOk (newServiceRegistry file)).
Proof.
  intros H.
  split; [by apply breakersOk_initialize|].
  split; [intros; by apply breakersOk_registerService|].
  split; [intros; by apply breakersOk_unregisterService|].
  split; [intros; by apply breakersOk_getService|].
  split; [intros; by apply breakersOk_recordSuccess|].
  split; [intros; by apply breakersOk_recordFailure|].
  split; [intros; by apply breakersOk_performHealthCheck|].
  split; [intros; by apply breakersOk_healthSweep|].
  split; [intros; by apply breakersOk_makeServiceRequest|].
  apply breakersOk_empty.
Qed.

Lemma breakersOk_preserved_witness :
  breakersOk trippedRegistry
  ∧ breakersOk (recordFailure "item-service" 6000 trippedRegistry)
  ∧ breakersOk (healthSweep (λ _, (ProbeOk, 31000)) true trippedRegistry).
Proof.
  split; [apply breakersOk_trippedRegistry|].
  destruct (breakersOk_preserved trippedRegistry breakersOk_trippedRegistry)
    as (_ & _ & _ & _ & _ & Hfail & _ & Hsweep & _).
  split; [apply Hfail | apply Hsweep].
Defined.

(** X6.  The table and the breaker map keep holding the same names
    through a single health probe, a whole sweep, [shutdown], a gateway
    request and the proxy handler's lookup. *)
Theorem paired_preserved_by_probes_and_gateway (r : ServiceRegistry) :
  paired r →
  (∀ probe now key, paired (performHealthCheck probe now key r).2)
  ∧ (∀ probe writeOk, paired (healthSweep probe writeOk r))
  ∧ (∀ writeOk, paired (shutdown writeOk r))
  ∧ (∀ serviceName reply now later,
       paired (makeServiceRequest serviceName reply now later r).2)
  ∧ (∀ serviceName now, paired (createDynamicProxy serviceName now r).2).
Proof.
  intros H.
  split; [intros; by apply paired_performHealthCheck|].
  split; [intros; by apply paired_healthSweep|].
  split; [intros writeOk; by apply paired_saveRegistry|].
  split; [intros; by apply paired_makeServiceRequest|].
  intros. rewrite createDynamicProxy_registry. by apply paired_getService.
Qed.

Lemma paired_preserved_by_probes_and_gateway_witness :
  paired trippedRegistry
  ∧ paired (healthSweep (λ _, (ProbeOk, 31000)) true trippedRegistry)
  ∧ paired (makeServiceRequest "item-service" (Return "ok"%string)
              70000 70050 trippedRegistry).2.
Proof.
  split; [apply paired_trippedRegistry|].
  destruct (paired_preserved_by_probes_and_gateway
              trippedRegistry paired_trippedRegistry)
    as (_ & Hsweep & _ & Hreq & _).
  split; [apply Hsweep | apply Hreq].
Defined.

(** ** Names the registry does not know, and names it forgets *)

Section UnknownNames.
Implicit Types (r : ServiceRegistry).

Lemma jsmap_delete_set_fresh {V : Type} (k : string) (v : V)
  (l : list (string * V)) :
  JsMap.get k l = None → JsMap.delete k (JsMap.set k v l) = l.
Proof.
  induction l as [|[k0 v0] l IH]; simpl.
  - intros _. by rewrite decide_True.
  - destruct (decide (k = k0)) as [->|Hne]; [done|].
    intros Hnone. simpl. rewrite decide_False by done. by rewrite IH.
Qed.



End UnknownNames.



(** X2.  Registering a name that has neither entry nor breaker and then
    unregistering it gives back the table, in its order, and the breaker
    map there were before; the removal reports [true]. *)
Theorem unregisterService_undoes_registerService (name0 url0 : string)
  (metadata0 : Metadata) (now : Z) (writeOk writeOk' : bool)
  (r : ServiceRegistry) :
  JsMap.get name0 (services r) = None →
  circuitBreakers r !! name0 = None →
  let registered := (registerService name0 url0 metadata0 now writeOk r).2 in
  (unregisterService name0 writeOk' registered).1 = true
  ∧ services (unregisterService name0 writeOk' registered).2 = services r
  ∧ circuitBreakers (unregisterService name0 writeOk' registered).2
    = circuitBreakers r.
Proof.
  intros Hnone Hb registered. subst registered.
  unfold unregisterService, JsMap.has.
  rewrite registerService_services, jsmap_get_set_eq.
  destruct writeOk';
    cbn [fst snd saveRegistry services circuitBreakers with_services
           with_circuitBreakers];
    rewrite registerService_circuitBreakers, jsmap_delete_set_fresh,
      delete_insert_id by done; done.
Qed.

Lemma unregisterService_undoes_registerService_witness :
  (JsMap.get "user-service" (services trippedRegistry) = None
   ∧ circuitBreakers trippedRegistry !! "user-service"%string = None)
  ∧ services
      (unregisterService "user-service" true
         (registerService "user-service" "http://localhost:3001"
            emptyMetadata 9000 true trippedRegistry).2).2
    = services trippedRegistry
  ∧ circuitBreakers
      (unregisterService "user-service" true
         (registerService "user-service" "http://localhost:3001"
            emptyMetadata 9000 true trippedRegistry).2).2
    = circuitBreakers trippedRegistry.
Proof.
  split; [split; vm_compute; reflexivity|].
  destruct (unregisterService_undoes_registerService "user-service"
              "http://localhost:3001" emptyMetadata 9000 true true
              trippedRegistry) as (_ & Hs & Hc);
    [reflexivity | vm_compute; reflexivity |].
  split; [exact Hs | exact Hc].
Defined.

(** ** The open state and the gateway *)

Section OpenState.
Implicit Types (r : ServiceRegistry) (b : CircuitBreaker).

Lemma breakerSuccess_open b : state b = open → state (breakerSuccess b) = open.
Proof.
  intros Hst. rewrite breakerSuccess_state, Hst.
  by rewrite decide_False.
Qed.

Lemma breakerFailure_open now b :
  state b = open → state (breakerFailure now b) = open.
Proof.
  intros Hst. destruct (Z_lt_le_dec (failures b + 1) (threshold b)).
  - by rewrite breakerFailure_below.
  - by apply breakerFailure_trips.
Qed.

Lemma recordSuccess_keeps_open k serviceName r b :
  circuitBreakers r !! serviceName = Some b → state b = open →
  ∃ b', circuitBreakers (recordSuccess k r) !! serviceName = Some b'
        ∧ state b' = open.
Proof.
  intros Hb Hst. destruct (decide (k = serviceName)) as [->|Hne].
  - eexists. split; [by apply recordSuccess_lookup|].
    by apply breakerSuccess_open.
  - exists b. by rewrite recordSuccess_lookup_ne.
Qed.

Lemma recordFailure_keeps_open k now serviceName r b :
  circuitBreakers r !! serviceName = Some b → state b = open →
  ∃ b', circuitBreakers (recordFailure k now r) !! serviceName = Some b'
        ∧ state b' = open.
Proof.
  intros Hb Hst. destruct (decide (k = serviceName)) as [->|Hne].
  - eexists. split; [by apply recordFailure_lookup|].
    by apply breakerFailure_open.
  - exists b. by rewrite recordFailure_lookup_ne.
Qed.

(** A request that finds the breaker shut. *)
Lemma makeServiceRequest_blocked serviceName reply now later r service b :
  JsMap.get serviceName (services r) = Some service →
  circuitBreakers r !! serviceName = Some b →
  state b = open →
  now - lastFailure b ≤ timeout b →
  makeServiceRequest serviceName reply now later r
  = (Throw (circuitOpenMessage serviceName),
     recordFailure serviceName later r).
Proof.
  intros Hs Hb Hst Hle. unfold makeServiceRequest.
  by rewrite (getService_blocked _ _ _ _ _ Hs Hb Hst Hle).
Qed.
End OpenState.

(** X7.  Nothing but a lookup moves a breaker out of the open state: a
    reported success, a reported failure and a health probe of any
    entry all leave an open breaker open (a failure on that name moving
    [lastFailure] to [now]), and a lookup made no later than [timeout]
    after [lastFailure] leaves the whole registry as it is. *)
Theorem open_left_only_by_lookup (serviceName : string)
  (r : ServiceRegistry) (b : CircuitBreaker) :
  circuitBreakers r !! serviceName = Some b →
  state b = open →
  (∀ k, ∃ b', circuitBreakers (recordSuccess k r) !! serviceName = Some b'
              ∧ state b' = open)
  ∧ (∀ k now,
       ∃ b', circuitBreakers (recordFailure k now r) !! serviceName = Some b'
             ∧ state b' = open)
  ∧ (∀ now,
       ∃ b', circuitBreakers (recordFailure serviceName now r) !! serviceName
             = Some b'
             ∧ state b' = open ∧ lastFailure b' = now)
  ∧ (∀ probe now key,
       ∃ b', circuitBreakers (performHealthCheck probe now key r).2
               !! serviceName = Some b'
             ∧ state b' = open)
  ∧ (∀ now, now - lastFailure b ≤ timeout b →
            (getService serviceName now r).2 = r).
Proof.
  intros Hb Hst.
  split; [intros; by eapply recordSuccess_keeps_open|].
  split; [intros; by eapply recordFailure_keeps_open|].
  split.
  { intros now. eexists. split; [by apply recordFailure_lookup|].
    split; [by apply breakerFailure_open|].
    by destruct (breakerFailure_fields now b) as (_ & ? & _). }
  split.
  { intros probe now key. unfold performHealthCheck.
    destruct (JsMap.get key (services r)) as [service|]; [|by exists b].
    destruct probe; simpl; [|by exists b|].
    - by eapply recordSuccess_keeps_open.
    - by eapply recordFailure_keeps_open. }
  intros now Hle. unfold getService.
  destruct (JsMap.get serviceName (services r)); [|done].
  rewrite Hb, decide_True by done.
  by destruct (Z.ltb_spec (timeout b) (now - lastFailure b)); [lia|].
Qed.

Lemma open_left_only_by_lookup_witness :
  (circuitBreakers trippedRegistry !! "item-service"%string
   = Some {| state := open; failures := 3; threshold := 3;
             timeout := 60000; lastFailure := 5000 |})
  ∧ (∃ b', circuitBreakers
             (performHealthCheck ProbeOk 31000 "item-service"
                trippedRegistry).2 !! "item-service"%string = Some b'
           ∧ state b' = open)
  ∧ (getService "item-service" 65000 trippedRegistry).2 = trippedRegistry.
Proof.
  split; [vm_compute; reflexivity|].
  destruct (open_left_only_by_lookup "item-service" trippedRegistry
              {| state := open; failures := 3; threshold := 3;
                 timeout := 60000; lastFailure := 5000 |})
    as (_ & _ & _ & Hprobe & Hlookup); [vm_compute; reflexivity | reflexivity |].
  split; [apply Hprobe | apply Hlookup; vm_compute; discriminate].
Defined.

(** X8.  A gateway request for a registered name whose breaker is open
    and whose timeout has run out at the lookup is let through.  If the
    call succeeds, the request returns the data, the breaker is closed
    with a count of zero, and every later lookup returns the entry.  If
    the call fails and the incremented count reaches the threshold, the
    request throws the call's error and the breaker is open again with
    [lastFailure] at the time of the record. *)
Theorem makeServiceRequest_trial (serviceName : string) (now later : Z)
  (r : ServiceRegistry) (service : ServiceEntry) (b : CircuitBreaker) :
  JsMap.get serviceName (services r) = Some service →
  circuitBreakers r !! serviceName = Some b →
  state b = open →
  timeout b < now - lastFailure b →
  (∀ data,
     let result := makeServiceRequest serviceName (Return data) now later r in
     result.1 = Return data
     ∧ circuitBreakers result.2 !! serviceName
       = Some (with_state closed (with_failures 0 b))
     ∧ ∀ now', getService serviceName now' result.2
               = (Return (Some service), result.2))
  ∧ (∀ message,
       threshold b ≤ failures b + 1 →
       let result :=
         makeServiceRequest serviceName (Throw message) now later r in
       result.1 = Throw message
       ∧ ∃ b', circuitBreakers result.2 !! serviceName = Some b'
               ∧ state b' = open ∧ lastFailure b' = later
               ∧ failures b' = failures b + 1).
Proof.
  intros Hs Hb Hst Hlt.
  pose proof (getService_trial _ _ _ _ _ Hs Hb Hst Hlt) as Hget.
  set (r1 := with_circuitBreakers
               (<[serviceName := with_state half_open b]> (circuitBreakers r))
               r) in Hget.
  assert (circuitBreakers r1 !! serviceName = Some (with_state half_open b))
    as Hb1 by apply lookup_insert_eq.
  split.
  - intros data result. subst result. unfold makeServiceRequest.
    rewrite Hget. simpl.
    pose proof (recordSuccess_half_open serviceName r1 _ Hb1 eq_refl) as Hb2.
    split; [done|]. split; [exact Hb2|].
    intros now'. eapply getService_passes;
      [by rewrite recordSuccess_services | exact Hb2 | discriminate].
  - intros message Hge result. subst result. unfold makeServiceRequest.
    rewrite Hget. simpl. split; [done|].
    exists (breakerFailure later (with_state half_open b)).
    split; [by apply recordFailure_lookup|].
    split; [by apply breakerFailure_trips|].
    destruct (breakerFailure_fields later (with_state half_open b))
      as (Hf & Hl & _).
    by split.
Qed.

Lemma makeServiceRequest_trial_witness :
  (JsMap.get "item-service" (services trippedRegistry) = Some itemEntry
   ∧ circuitBreakers trippedRegistry !! "item-service"%string
     = Some {| state := open; failures := 3; threshold := 3;
               timeout := 60000; lastFailure := 5000 |}
   ∧ 60000 < 70000 - 5000)
  ∧ (makeServiceRequest "item-service" (Return "[]"%string) 70000 70040
       trippedRegistry).1 = Return "[]"%string
  ∧ circuitBreakers
      (makeServiceRequest "item-service" (Return "[]"%string) 70000 70040
         trippedRegistry).2 !! "item-service"%string
    = Some {| state := closed; failures := 0; threshold := 3;
              timeout := 60000; lastFailure := 5000 |}.
Proof.
  split; [repeat split; vm_compute; reflexivity|].
  destruct (makeServiceRequest_trial "item-service" 70000 70040
              trippedRegistry itemEntry
              {| state := open; failures := 3; threshold := 3;
                 timeout := 60000; lastFailure := 5000 |})
    as [Hok _]; [vm_compute; reflexivity..|].
  destruct (Hok "[]"%string) as (Hres & Hb & _).
  split; [exact Hres | exact Hb].
Defined.

(** X9.  Gateway requests that find the breaker shut restart its
    window.  Let the breaker of a registered name be open, and let
    every request look the name up no later than [timeout] after the
    previous record ([lastFailure] for the first one).  Then every one
    of the requests throws the circuit-open error, and after all of
    them the breaker is still open, its count has grown by their
    number, its [lastFailure] is the time of the last record, and the
    table is untouched. *)
Theorem makeServiceRequest_blocked_restarts_window (serviceName : string)
  (reply : Outcome string) (calls : list (Z * Z)) (r : ServiceRegistry)
  (service : ServiceEntry) (b : CircuitBreaker) :
  JsMap.get serviceName (services r) = Some service →
  circuitBreakers r !! serviceName = Some b →
  state b = open →
  spaced (timeout b) (lastFailure b) calls →
  (∃ b', circuitBreakers (makeServiceRequests serviceName reply calls r)
           !! serviceName = Some b'
         ∧ state b' = open
         ∧ failures b' = failures b + Z.of_nat (List.length calls)
         ∧ timeout b' = timeout b
         ∧ lastFailure b' = default (lastFailure b) (last calls.*2))
  ∧ services (makeServiceRequests serviceName reply calls r) = services r
  ∧ (∀ before now later after,
       calls = before ++ (now, later) :: after →
       (makeServiceRequest serviceName reply now later
          (makeServiceRequests serviceName reply before r)).1
       = Throw (circuitOpenMessage serviceName)).
Proof.
  revert r b. induction calls as [|[now later] calls IH];
    intros r b Hs Hb Hst Hsp.
  - split; [exists b; repeat split; try done; simpl; lia|].
    split; [done|]. intros [|? ?] ? ? ? Heq; discriminate.
  - destruct Hsp as [Hle Hsp].
    pose proof (makeServiceRequest_blocked serviceName reply now later
                  r service b Hs Hb Hst Hle) as Hstep.
    set (r1 := recordFailure serviceName later r) in *.
    assert (circuitBreakers r1 !! serviceName
            = Some (breakerFailure later b)) as Hb1
      by by apply recordFailure_lookup.
    assert (JsMap.get serviceName (services r1) = Some service) as Hs1
      by (subst r1; by rewrite recordFailure_services).
    destruct (breakerFailure_fields later b) as (Hf1 & Hl1 & _ & Hto1).
    assert (makeServiceRequests serviceName reply ((now, later) :: calls) r
            = makeServiceRequests serviceName reply calls r1) as Hunfold
      by (unfold makeServiceRequests; simpl; by rewrite Hstep).
    destruct (IH r1 (breakerFailure later b) Hs1 Hb1
                (breakerFailure_open later b Hst))
      as ((b' & Hb' & Hst' & Hf' & Hto' & Hl') & Hserv & Hall).
    { by rewrite Hto1, Hl1. }
    rewrite Hunfold. split; [|split].
    + exists b'. split; [done|]. split; [done|].
      split; [rewrite Hf', Hf1; simpl List.length; lia|].
      split; [congruence|]. rewrite Hl', Hl1.
      rewrite fmap_cons, last_cons. by destruct (last calls.*2).
    + rewrite Hserv. subst r1. apply recordFailure_services.
    + intros [|[now0 later0] before] now' later' after Heq.
      * injection Heq as Hn Hl _. subst now' later'. simpl.
        by rewrite Hstep.
      * injection Heq as Hn Hl Heq. subst now0 later0.
        assert (makeServiceRequests serviceName reply
                  ((now, later) :: before) r
                = makeServiceRequests serviceName reply before r1) as ->
          by (unfold makeServiceRequests; simpl; by rewrite Hstep).
        by eapply Hall.
Qed.

Lemma makeServiceRequest_blocked_restarts_window_witness :
  (JsMap.get "item-service" (services trippedRegistry) = Some itemEntry
   ∧ circuitBreakers trippedRegistry !! "item-service"%string
     = Some {| state := open; failures := 3; threshold := 3;
               timeout := 60000; lastFailure := 5000 |}
   ∧ spaced 60000 5000 [(60000, 60001); (120000, 120001); (180000, 180001)])
  ∧ ∃ b', circuitBreakers
            (makeServiceRequests "item-service" (Return "[]"%string)
               [(60000, 60001); (120000, 120001); (180000, 180001)]
               trippedRegistry) !! "item-service"%string = Some b'
          ∧ state b' = open
          ∧ failures b' = 3 + 3
          ∧ lastFailure b' = 180001.
Proof.
  split.
  { split; [vm_compute; reflexivity|]. split; [vm_compute; reflexivity|].
    simpl. lia. }
  destruct (makeServiceRequest_blocked_restarts_window "item-service"
              (Return "[]"%string)
              [(60000, 60001); (120000, 120001); (180000, 180001)]
              trippedRegistry itemEntry
              {| state := open; failures := 3; threshold := 3;
                 timeout := 60000; lastFailure := 5000 |})
    as ((b' & Hb' & Hst' & Hf' & _ & Hl') & _);
    [vm_compute; reflexivity | vm_compute; reflexivity | reflexivity
    | simpl; lia |].
  exists b'. split; [exact Hb'|]. split; [exact Hst'|].
  split; [exact Hf' | exact Hl'].
Defined.



(** ** Loading and restoring the snapshot *)

Section Snapshot.
Implicit Types (r : ServiceRegistry) (m : list (string * ServiceEntry)).

Lemma foldl_loadService_services loaded r :
  services (foldl loadService r loaded)
  = foldl (λ m e, JsMap.set (name e) e m) (services r) loaded.
Proof.
  revert r. induction loaded as [|e loaded IH]; intros r; [done|].
  simpl. by rewrite IH.
Qed.

Lemma foldl_loadService_circuitBreakers loaded r :
  circuitBreakers (foldl loadService r loaded)
  = foldl (λ c e, <[name e := newCircuitBreaker]> c) (circuitBreakers r)
      loaded.
Proof.
  revert r. induction loaded as [|e loaded IH]; intros r; [done|].
  simpl. by rewrite IH.
Qed.

Lemma foldl_loadService_snapshot loaded r :
  snapshot (foldl loadService r loaded) = snapshot r
  ∧ snapshotWrites (foldl loadService r loaded) = snapshotWrites r.
Proof.
  revert r. induction loaded as [|e loaded IH]; intros r; [done|].
  simpl. by destruct (IH (loadService r e)) as [-> ->].
Qed.

(** Of several loaded entries with one name the last one stays. *)
Lemma foldl_set_get k loaded m :
  JsMap.get k (foldl (λ m e, JsMap.set (name e) e m) m loaded)
  = match last (List.filter (λ e, bool_decide (name e = k)) loaded) with
    | Some e => Some e
    | None => JsMap.get k m
    end.
Proof.
  revert m. induction loaded as [|e loaded IH]; intros m; [done|].
  simpl. rewrite IH. destruct (decide (name e = k)) as [<-|Hne].
  - rewrite bool_decide_true by done. rewrite last_cons.
    rewrite jsmap_get_set_eq. by destruct (last _).
  - rewrite bool_decide_false by done. by rewrite jsmap_get_set_ne.
Qed.

Lemma foldl_insert_lookup (k : string) loaded
  (c : gmap string CircuitBreaker) :
  foldl (λ c e, <[name e := newCircuitBreaker]> c) c loaded !! k
  = if bool_decide (k ∈ name <$> loaded)
    then Some newCircuitBreaker else c !! k.
Proof.
  revert c. induction loaded as [|e loaded IH]; intros c; [done|].
  rewrite fmap_cons. cbn [foldl]. rewrite IH.
  destruct (decide (k ∈ name <$> loaded)) as [Hin|Hnin].
  - rewrite !bool_decide_true; [done | by right | done].
  - rewrite (bool_decide_false _ Hnin).
    destruct (decide (k = name e)) as [->|Hne].
    + rewrite bool_decide_true by left. apply lookup_insert_eq.
    + rewrite bool_decide_false
        by (intros [?|?]%elem_of_cons; contradiction).
      by apply lookup_insert_ne.
Qed.

Lemma jsmap_set_fresh {V : Type} (k : string) (v : V)
  (l : list (string * V)) :
  JsMap.get k l = None → JsMap.set k v l = l ++ [(k, v)].
Proof.
  induction l as [|[k0 v0] l IH]; simpl; [done|].
  destruct (decide (k = k0)); [done|]. intros H. by rewrite IH.
Qed.

(** Storing the entries of a well-formed table one by one after a
    table with other keys rebuilds it behind that table. *)
Lemma foldl_set_values m (acc : list (string * ServiceEntry)) :
  NoDup (JsMap.keys (acc ++ m)) →
  Forall (λ kv, name kv.2 = kv.1) m →
  foldl (λ m e, JsMap.set (name e) e m) acc (JsMap.values m) = acc ++ m.
Proof.
  unfold JsMap.values, JsMap.keys. revert acc.
  induction m as [|[k e] m IH]; intros acc Hnd Hall.
  - simpl. by rewrite app_nil_r.
  - apply Forall_cons in Hall as [Hname Hall]. simpl in Hname. subst k.
    simpl. rewrite jsmap_set_fresh.
    + rewrite IH; [by rewrite <- app_assoc | by rewrite <- app_assoc | done].
    + apply jsmap_get_None. unfold JsMap.keys.
      rewrite fmap_app in Hnd. simpl in Hnd.
      apply NoDup_app in Hnd as (_ & Hdisj & _).
      intros Hin. apply (Hdisj _ Hin). by left.
Qed.
End Snapshot.

(** X11.  What [initialize] leaves under a name, whatever the state it
    starts from and whatever the file holds (a missing or unreadable
    file loads nothing): the last loaded entry of that name if there is
    one, else the entry the table had; the breaker of every loaded name
    is the fresh closed one, the other breakers are kept; the timer is
    armed and the file is not written. *)
Theorem initialize_lookup (k : string) (r : ServiceRegistry) :
  let loaded := default [] (snapshot r) in
  JsMap.get k (services (initialize r))
  = match last (List.filter (λ e, bool_decide (name e = k)) loaded) with
    | Some e => Some e
    | None => JsMap.get k (services r)
    end
  ∧ circuitBreakers (initialize r) !! k
    = (if bool_decide (k ∈ name <$> loaded)
       then Some newCircuitBreaker
       else circuitBreakers r !! k)
  ∧ healthCheckTimer (initialize r) = true
  ∧ snapshot (initialize r) = snapshot r
  ∧ snapshotWrites (initialize r) = snapshotWrites r.
Proof.
  unfold initialize, startHealthChecks. simpl.
  destruct (snapshot r) as [loaded|] eqn:Hsnap; simpl.
  - rewrite foldl_loadService_services, foldl_loadService_circuitBreakers.
    split; [apply foldl_set_get|].
    split; [apply foldl_insert_lookup|]. split; [done|].
    destruct (foldl_loadService_snapshot loaded r) as [-> ->].
    by rewrite Hsnap.
  - by rewrite Hsnap.
Qed.

(** X12.  Stopping a registry with a well-formed table and starting a
    new one on the file it wrote gives back the same table, entries,
    statuses and order included; no breaker state survives: every name
    of the table has the fresh closed breaker and no other name has one;
    the timer of the new registry is armed. *)
Theorem restart_restores_table (r : ServiceRegistry) :
  tableWf (services r) →
  let restarted :=
    initialize (newServiceRegistry (snapshot (shutdown true r))) in
  services restarted = services r
  ∧ (∀ k, circuitBreakers restarted !! k
          = if JsMap.has k (services r)
            then Some newCircuitBreaker else None)
  ∧ healthCheckTimer restarted = true.
Proof.
  intros Hwf restarted. subst restarted.
  unfold initialize, startHealthChecks, shutdown, stopHealthChecks.
  simpl. rewrite foldl_loadService_services, foldl_loadService_circuitBreakers.
  simpl. split; [|split; [|done]].
  - rewrite foldl_set_values; [done | apply Hwf | apply Hwf].
  - intros k. rewrite foldl_insert_lookup, lookup_empty.
    rewrite tableWf_names by done.
    unfold JsMap.has.
    destruct (JsMap.get k (services r)) as [e|] eqn:Hget.
    + rewrite bool_decide_true; [done|].
      destruct (decide (k ∈ JsMap.keys (services r))) as [?|Hnin]; [done|].
      apply jsmap_get_None in Hnin. congruence.
    + rewrite bool_decide_false; [done|]. by apply jsmap_get_None.
Qed.

Lemma restart_restores_table_witness :
  tableWf (services trippedRegistry)
  ∧ services
      (initialize (newServiceRegistry (snapshot (shutdown true trippedRegistry))))
    = services trippedRegistry
  ∧ circuitBreakers
      (initialize (newServiceRegistry (snapshot (shutdown true trippedRegistry))))
      !! "item-service"%string
    = Some newCircuitBreaker.
Proof.
  split; [apply tableWf_trippedRegistry|].
  destruct (restart_restores_table trippedRegistry tableWf_trippedRegistry)
    as (Hs & Hb & _).
  split; [exact Hs | exact (Hb "item-service"%string)].
Defined.

(** ** The health sweep, entry by entry *)

Section Sweep.
Implicit Types (r : ServiceRegistry).

Lemma performHealthCheck_get probe now key k r :
  JsMap.get k (services (performHealthCheck probe now key r).2)
  = if decide (k = key)
    then probedEntry (probe, now) <$> JsMap.get k (services r)
    else JsMap.get k (services r).
Proof.
  unfold performHealthCheck.
  destruct (JsMap.get key (services r)) as [service|] eqn:Hget.
  - destruct probe; simpl;
      rewrite ?recordSuccess_services, ?recordFailure_services; simpl;
      destruct (decide (k = key)) as [->|Hne];
      rewrite ?Hget, ?jsmap_get_set_eq, ?jsmap_get_set_ne by done; done.
  - simpl. destruct (decide (k = key)) as [->|Hne]; [by rewrite Hget | done].
Qed.

Lemma performHealthCheck_keys probe now key r :
  JsMap.keys (services (performHealthCheck probe now key r).2)
  = JsMap.keys (services r).
Proof.
  destruct (performHealthCheck_services probe now key r) as [->|[_ ->]];
    [|done].
  destruct (JsMap.get key (services r)) as [service|] eqn:Hget; [|done].
  apply jsmap_keys_set_present. by rewrite Hget.
Qed.

Lemma recordSuccess_lookup_fmap k r :
  circuitBreakers (recordSuccess k r) !! k
  = breakerSuccess <$> circuitBreakers r !! k.
Proof.
  destruct (circuitBreakers r !! k) as [b|] eqn:Hb.
  - by rewrite (recordSuccess_lookup _ _ _ Hb).
  - unfold recordSuccess. by rewrite Hb, Hb.
Qed.

Lemma recordFailure_lookup_fmap k now r :
  circuitBreakers (recordFailure k now r) !! k
  = breakerFailure now <$> circuitBreakers r !! k.
Proof.
  destruct (circuitBreakers r !! k) as [b|] eqn:Hb.
  - by rewrite (recordFailure_lookup _ _ _ _ Hb).
  - unfold recordFailure. by rewrite Hb, Hb.
Qed.

Lemma performHealthCheck_breaker probe now key k r :
  tableWf (services r) →
  circuitBreakers (performHealthCheck probe now key r).2 !! k
  = if decide (k = key)
    then (if JsMap.has k (services r)
          then probedBreaker (probe, now) <$> circuitBreakers r !! k
          else circuitBreakers r !! k)
    else circuitBreakers r !! k.
Proof.
  intros Hwf. unfold performHealthCheck, JsMap.has.
  destruct (JsMap.get key (services r)) as [service|] eqn:Hget.
  - assert (name service = key) as Hname
      by (eapply tableWf_entry_name; [done | by apply jsmap_get_Some_elem]).
    destruct (decide (k = key)) as [->|Hne]; rewrite ?Hget.
    + destruct probe; cbn [snd name probedHealthy probedUnhealthy];
        rewrite ?Hname, ?recordSuccess_lookup_fmap,
          ?recordFailure_lookup_fmap;
        cbn [circuitBreakers with_services];
        by destruct (circuitBreakers r !! key).
    + destruct probe; cbn [snd name probedHealthy probedUnhealthy];
        rewrite ?Hname, ?recordSuccess_lookup_ne,
          ?recordFailure_lookup_ne by done; done.
  - simpl. destruct (decide (k = key)) as [->|Hne]; [by rewrite Hget | done].
Qed.

(** Probing the entries under distinct keys [ks] one after the other. *)
Lemma sweep_pointwise (probe : string → Probe * Z) (ks : list string) r k :
  NoDup ks → tableWf (services r) →
  let swept :=
    foldl (λ r key, (performHealthCheck (probe key).1 (probe key).2 key r).2)
      r ks in
  JsMap.get k (services swept)
  = (if decide (k ∈ ks)
     then probedEntry (probe k) <$> JsMap.get k (services r)
     else JsMap.get k (services r))
  ∧ circuitBreakers swept !! k
    = (if decide (k ∈ ks)
       then (if JsMap.has k (services r)
             then probedBreaker (probe k) <$> circuitBreakers r !! k
             else circuitBreakers r !! k)
       else circuitBreakers r !! k)
  ∧ JsMap.keys (services swept) = JsMap.keys (services r).
Proof.
  revert r. induction ks as [|key ks IH]; intros r Hnd Hwf.
  - cbv zeta. cbn [foldl]. by rewrite !decide_False by apply not_elem_of_nil.
  - apply NoDup_cons in Hnd as [Hkey Hnd]. cbn [foldl]. cbv zeta.
    destruct (IH (performHealthCheck (probe key).1 (probe key).2 key r).2
                Hnd (tableWf_performHealthCheck _ _ _ _ Hwf))
      as (Hget & Hbr & Hkeys).
    cbv zeta in Hget, Hbr, Hkeys. rewrite Hget, Hbr, Hkeys.
    rewrite performHealthCheck_keys. split; [|split; [|done]].
    + rewrite performHealthCheck_get.
      destruct (decide (k = key)) as [->|Hne].
      * rewrite decide_False by done. rewrite decide_True by left.
        by destruct (probe key).
      * destruct (decide (k ∈ ks)) as [Hin|Hnin].
        -- by rewrite decide_True by by right.
        -- rewrite decide_False; [done|].
           intros [?|?]%elem_of_cons; contradiction.
    + rewrite performHealthCheck_breaker by done.
      assert (JsMap.has k
                (services
                   (performHealthCheck (probe key).1 (probe key).2 key r).2)
              = JsMap.has k (services r)) as ->.
      { unfold JsMap.has. rewrite performHealthCheck_get.
        destruct (decide (k = key)); [|done].
        by destruct (JsMap.get k (services r)). }
      destruct (decide (k = key)) as [->|Hne].
      * rewrite decide_False by done. rewrite decide_True by left.
        by destruct (probe key).
      * destruct (decide (k ∈ ks)) as [Hin|Hnin].
        -- by rewrite decide_True by by right.
        -- rewrite decide_False; [done|].
           intros [?|?]%elem_of_cons; contradiction.
Qed.
End Sweep.

(** The sweep, key by key. *)
Lemma healthSweep_by_entry (probe : string → Probe * Z) (writeOk : bool)
  (r : ServiceRegistry) (k : string) :
  tableWf (services r) →
  JsMap.get k (services (healthSweep probe writeOk r))
  = probedEntry (probe k) <$> JsMap.get k (services r)
  ∧ circuitBreakers (healthSweep probe writeOk r) !! k
    = (if JsMap.has k (services r)
       then probedBreaker (probe k) <$> circuitBreakers r !! k
       else circuitBreakers r !! k).
Proof.
  intros Hwf. unfold healthSweep.
  set (inner := foldl _ r (JsMap.keys (services r))).
  destruct (saveRegistry_fields writeOk inner) as (Hs & Hc & _).
  rewrite Hs, Hc.
  destruct (sweep_pointwise probe (JsMap.keys (services r)) r k
              (proj1 Hwf) Hwf) as (Hget & Hbr & _).
  cbv zeta in Hget, Hbr. fold inner in Hget, Hbr. rewrite Hget, Hbr.
  unfold JsMap.has.
  destruct (decide (k ∈ JsMap.keys (services r))) as [Hin|Hnin]; [done|].
  apply jsmap_get_None in Hnin. by rewrite Hnin.
Qed.

(** X13.  A health sweep over a well-formed table treats every entry on
    its own.  The entry under each key is the old one after its own
    probe: marked healthy with a count of zero and the probe time, left
    alone by a response of another status, or marked unhealthy with the
    count raised and the error kept.  The breaker of each name of the
    table takes the matching report (a success, nothing, or a failure at
    the probe time).  Keys and their order are the same, and a
    successful write leaves exactly the swept table in the file. *)
Theorem healthSweep_pointwise (probe : string → Probe * Z) (writeOk : bool)
  (r : ServiceRegistry) :
  tableWf (services r) →
  let swept := healthSweep probe writeOk r in
  (∀ k, JsMap.get k (services swept)
        = probedEntry (probe k) <$> JsMap.get k (services r))
  ∧ (∀ k, circuitBreakers swept !! k
          = if JsMap.has k (services r)
            then probedBreaker (probe k) <$> circuitBreakers r !! k
            else circuitBreakers r !! k)
  ∧ JsMap.keys (services swept) = JsMap.keys (services r)
  ∧ (writeOk = true → snapshot swept = Some (getAllServices swept)).
Proof.
  intros Hwf swept. subst swept.
  split; [intros k; by apply healthSweep_by_entry|].
  split; [intros k; by apply healthSweep_by_entry|].
  unfold healthSweep.
  set (inner := foldl _ r (JsMap.keys (services r))).
  destruct (saveRegistry_fields writeOk inner) as (Hs & _ & _ & Hsnap).
  split.
  - rewrite Hs.
    destruct (sweep_pointwise probe (JsMap.keys (services r)) r ""%string
                (proj1 Hwf) Hwf) as (_ & _ & Hkeys).
    exact Hkeys.
  - intros ->. rewrite Hsnap. unfold getAllServices. by rewrite Hs.
Qed.

Lemma healthSweep_pointwise_witness :
  tableWf (services trippedRegistry)
  ∧ JsMap.get "item-service"
      (services (healthSweep (λ _, (ProbeOk, 31000)) true trippedRegistry))
    = probedEntry (ProbeOk, 31000)
      <$> JsMap.get "item-service" (services trippedRegistry)
  ∧ circuitBreakers
      (healthSweep (λ _, (ProbeOk, 31000)) true trippedRegistry)
      !! "item-service"%string
    = Some {| state := open; failures := 0; threshold := 3;
              timeout := 60000; lastFailure := 5000 |}.
Proof.
  split; [apply tableWf_trippedRegistry|].
  destruct (healthSweep_pointwise (λ _, (ProbeOk, 31000)) true
              trippedRegistry tableWf_trippedRegistry) as (Hget & Hbr & _).
  split; [exact (Hget "item-service"%string)|].
  rewrite (Hbr "item-service"%string). vm_compute. reflexivity.
Defined.

(** ** Views of the table *)

Section Views.
Implicit Types (r : ServiceRegistry) (service : ServiceEntry).

Lemma filter_bool_sublist {A : Type} (f g : A → bool) (l : list A) :
  (∀ x, f x = true → g x = true) →
  List.filter f l `sublist_of` List.filter g l.
Proof.
  intros Himp. induction l as [|x l IH]; simpl; [done|].
  destruct (f x) eqn:Hf.
  - rewrite (Himp x Hf). by apply sublist_skip.
  - destruct (g x); [by apply sublist_cons | done].
Qed.

Lemma filter_bool_all {A : Type} (l : list A) :
  List.filter (λ _, true) l = l.
Proof. induction l as [|x l IH]; simpl; [done | by rewrite IH]. Qed.

Lemma filter_bool_filter {A : Type} (f g : A → bool) (l : list A) :
  List.filter f (List.filter g l) = List.filter (λ x, g x && f x) l.
Proof.
  induction l as [|x l IH]; simpl; [done|].
  destruct (g x); simpl; [|done]. destruct (f x); by rewrite IH.
Qed.

Lemma getHealthyServices_elem r service :
  service ∈ getHealthyServices r
  ↔ service ∈ getAllServices r ∧ status service = healthy.
Proof.
  unfold getHealthyServices, getAllServices.
  by rewrite elem_of_filter_bool, isHealthy_true.
Qed.

(** With a candidate and a clock that is not negative, the load balancer
    picks one of the candidates. *)
Lemma getServiceWithLoadBalancing_some serviceName now r service :
  service ∈ balancingCandidates serviceName r → 0 ≤ now →
  ∃ e, getServiceWithLoadBalancing serviceName now r = Some e
       ∧ e ∈ balancingCandidates serviceName r.
Proof.
  intros Hin Hnow. unfold getServiceWithLoadBalancing.
  set (candidates := balancingCandidates serviceName r) in *.
  assert (0 < Z.of_nat (List.length candidates)) as Hlen.
  { destruct candidates; [by apply elem_of_nil in Hin | simpl; lia]. }
  destruct (Nat.eqb_spec (List.length candidates) 0) as [Hz|_]; [lia|].
  assert (0 ≤ now / 1000) as Hsec by (apply Z.div_pos; lia).
  rewrite Z.rem_mod_nonneg by lia.
  pose proof (Z.mod_pos_bound (now / 1000)
                (Z.of_nat (List.length candidates)) Hlen) as Hbound.
  unfold arrayAt.
  destruct (Z.ltb_spec ((now / 1000) mod Z.of_nat (List.length candidates)) 0);
    [lia|].
  destruct (lookup_lt_is_Some_2 candidates
              (Z.to_nat ((now / 1000) mod Z.of_nat (List.length candidates))))
    as [e He]; [lia|].
  exists e. split; [done|]. by eapply list_elem_of_lookup_2.
Qed.

Lemma entryOk_probedEntry p service :
  entryOk service → entryOk (probedEntry p service).
Proof.
  intros H. unfold probedEntry. destruct p.1; [by left | done |].
  right. simpl. split; [done|]. destruct H as [[_ ->]|[_ ?]]; lia.
Qed.

Lemma entriesOk_set k service r :
  entryOk service → entriesOk r →
  Forall entryOk (JsMap.values (JsMap.set k service (services r))).
Proof.
  unfold entriesOk, getAllServices, JsMap.values.
  intros He Hall. apply Forall_forall. intros e Hin.
  apply list_elem_of_fmap in Hin as ([k' e'] & -> & Hin).
  apply jsmap_elem_set in Hin as [[= -> ->]|[[Hin _]|[Hin _]]]; [done|..];
    apply (proj1 (Forall_forall _ _) Hall);
    apply list_elem_of_fmap; by exists (k', e').
Qed.

Lemma entriesOk_same r r' :
  services r' = services r → entriesOk r → entriesOk r'.
Proof. unfold entriesOk, getAllServices. by intros ->. Qed.

Lemma entriesOk_performHealthCheck probe now key r :
  entriesOk r → entriesOk (performHealthCheck probe now key r).2.
Proof.
  intros H. unfold entriesOk, getAllServices.
  destruct (performHealthCheck_services probe now key r) as [->|[_ ->]];
    [|done].
  destruct (JsMap.get key (services r)) as [service|] eqn:Hget; [|done].
  apply entriesOk_set; [|done]. apply entryOk_probedEntry.
  apply (proj1 (Forall_forall _ _) H). apply list_elem_of_fmap.
  exists (key, service). split; [done | by apply jsmap_get_Some_elem].
Qed.
End Views.

(** X14.  The filtered views keep the order of the table: the healthy
    entries are a subsequence of all entries, and both the entries found
    by tag and the candidates of the load balancer are subsequences of
    the healthy entries.  The healthy entries are exactly the entries of
    the table whose status is healthy, so there are never more of them
    than entries. *)
Theorem views_are_subsequences (r : ServiceRegistry) :
  getHealthyServices r `sublist_of` getAllServices r
  ∧ (∀ tag, findServicesByTag tag r `sublist_of` getHealthyServices r)
  ∧ (∀ prefix, balancingCandidates prefix r `sublist_of` getHealthyServices r)
  ∧ (∀ service,
       service ∈ getHealthyServices r
       ↔ service ∈ getAllServices r ∧ status service = healthy)
  ∧ (List.length (getHealthyServices r) ≤ List.length (getAllServices r))%nat.
Proof.
  assert (getHealthyServices r `sublist_of` getAllServices r) as Hsub.
  { unfold getHealthyServices, getAllServices.
    rewrite <- (filter_bool_all (JsMap.values (services r))) at 2.
    by apply filter_bool_sublist. }
  split; [exact Hsub|].
  split.
  { intros tag. unfold findServicesByTag, getHealthyServices.
    rewrite filter_bool_filter. apply filter_bool_sublist.
    by intros x [_ ?]%andb_true_iff. }
  split.
  { intros prefix. unfold balancingCandidates, getHealthyServices.
    apply filter_bool_sublist. by intros x [_ ?]%andb_true_iff. }
  split; [apply getHealthyServices_elem|].
  by apply sublist_length.
Qed.

(** X15.  What has just been registered is found: whatever entry and
    breaker the name had before, right after [registerService] every
    lookup of the name returns the new entry without touching the
    registry, the entry is among the healthy ones and among those found
    by each of its tags, the load balancer returns a healthy entry for
    every prefix of the name at a clock that is not negative, and a
    successful write has put the table, new entry included, in the
    file. *)
Theorem registerService_then_found (name0 url0 : string)
  (metadata0 : Metadata) (now : Z) (writeOk : bool) (r : ServiceRegistry) :
  let service := (registerService name0 url0 metadata0 now writeOk r).1 in
  let r' := (registerService name0 url0 metadata0 now writeOk r).2 in
  (∀ now', getService name0 now' r' = (Return (Some service), r'))
  ∧ service ∈ getHealthyServices r'
  ∧ (∀ tag ts, tags metadata0 = Some ts → tag ∈ ts →
               service ∈ findServicesByTag tag r')
  ∧ (∀ prefix rest now',
       name0 = (prefix ++ rest)%string → 0 ≤ now' →
       ∃ e, getServiceWithLoadBalancing prefix now' r' = Some e
            ∧ status e = healthy
            ∧ ∃ rest', name e = (prefix ++ rest')%string)
  ∧ (writeOk = true →
     snapshot r' = Some (getAllServices r') ∧ service ∈ getAllServices r').
Proof.
  intros service r'.
  assert (JsMap.get name0 (services r') = Some service) as Hget
    by (subst r'; by rewrite registerService_services, jsmap_get_set_eq).
  assert (circuitBreakers r' !! name0 = Some newCircuitBreaker) as Hb
    by (subst r'; by rewrite registerService_circuitBreakers,
                     lookup_insert_eq).
  assert (service ∈ getAllServices r') as Hin.
  { unfold getAllServices, JsMap.values. apply list_elem_of_fmap.
    exists (name0, service). split; [done | by apply jsmap_get_Some_elem]. }
  split; [intros now'; by eapply getService_passes|].
  split; [by apply getHealthyServices_elem|].
  split.
  { intros tag ts Hts Htag. apply findServicesByTag_elem.
    split; [done|]. split; [by exists ts | done]. }
  split.
  { intros prefix rest now' Hname Hnow'.
    destruct (getServiceWithLoadBalancing_some prefix now' r' service)
      as (e & He & Hcand); [|done|].
    - apply balancingCandidates_elem. split; [done|].
      split; [by exists rest | done].
    - exists e. split; [done|].
      apply balancingCandidates_elem in Hcand as (_ & Hpre & Hst).
      by split. }
  intros ->. split; [|done]. subst r'. apply registerService_snapshot.
Qed.

Lemma registerService_then_found_witness :
  (tags itemMetadata = Some ["items"%string; "catalog"%string]
   ∧ 0 ≤ 70000)
  ∧ itemEntry
    ∈ findServicesByTag "catalog"
        (registerService "item-service" "http://localhost:3002"
           itemMetadata 1000 true trippedRegistry).2
  ∧ ∃ e, getServiceWithLoadBalancing "item" 70000
           (registerService "item-service" "http://localhost:3002"
              itemMetadata 1000 true trippedRegistry).2 = Some e
         ∧ status e = healthy.
Proof.
  split; [split; [reflexivity | lia]|].
  destruct (registerService_then_found "item-service"
              "http://localhost:3002" itemMetadata 1000 true trippedRegistry)
    as (_ & _ & Htag & Hpick & _).
  split.
  - apply (Htag "catalog"%string ["items"%string; "catalog"%string]);
      [reflexivity | right; left].
  - destruct (Hpick "item"%string "-service"%string 70000)
      as (e & He & Hst & _); [reflexivity | lia |].
    exists e. by split.
Defined.

(** X16.  Status and displayed failure count agree: if every entry is
    either healthy with [failureCount] 0 or unhealthy with a positive
    [failureCount], this still holds after a registration, a removal, a
    health probe with any outcome, a whole sweep, a lookup, an outcome
    report and a gateway request, and after [initialize] when the loaded
    entries are of that form too. *)
Theorem entriesOk_preserved (r : ServiceRegistry) :
  entriesOk r →
  (∀ name0 url0 metadata0 now writeOk,
     entriesOk (registerService name0 url0 metadata0 now writeOk r).2)
  ∧ (∀ name0 writeOk, entriesOk (unregisterService name0 writeOk r).2)
  ∧ (∀ probe now key, entriesOk (performHealthCheck probe now key r).2)
  ∧ (∀ probe writeOk, entriesOk (healthSweep probe writeOk r))
  ∧ (∀ name0 now, entriesOk (getService name0 now r).2)
  ∧ (∀ serviceName, entriesOk (recordSuccess serviceName r))
  ∧ (∀ serviceName now, entriesOk (recordFailure serviceName now r))
  ∧ (∀ serviceName reply now later,
       entriesOk (makeServiceRequest serviceName reply now later r).2)
  ∧ (Forall entryOk (default [] (snapshot r)) → entriesOk (initialize r)).
Proof.
  intros H.
  split.
  { intros. unfold entriesOk, getAllServices.
    rewrite registerService_services. apply entriesOk_set; [by left | done]. }
  split.
  { intros name0 writeOk. unfold unregisterService.
    destruct (JsMap.has name0 (services r)); [|done].
    eapply entriesOk_same; [apply saveRegistry_fields|].
    unfold entriesOk, getAllServices, JsMap.values. simpl.
    apply Forall_forall. intros e ([k e'] & -> & Hin)%list_elem_of_fmap.
    apply jsmap_elem_delete in Hin as [Hin _].
    apply (proj1 (Forall_forall _ _) H). apply list_elem_of_fmap.
    by exists (k, e'). }
  split; [intros; by apply entriesOk_performHealthCheck|].
  split.
  { intros probe writeOk. unfold healthSweep.
    eapply entriesOk_same; [apply saveRegistry_fields|].
    apply (foldl_preserves entriesOk); [|done].
    intros a key Ha. by apply entriesOk_performHealthCheck. }
  split; [intros; eapply entriesOk_same; [apply getService_services | done]|].
  split; [intros; eapply entriesOk_same; [apply recordSuccess_services | done]|].
  split; [intros; eapply entriesOk_same; [apply recordFailure_services | done]|].
  split.
  { intros. eapply entriesOk_same; [apply makeServiceRequest_services | done]. }
  intros Hloaded. unfold initialize, startHealthChecks.
  eapply entriesOk_same; [reflexivity|].
  destruct (snapshot r) as [loaded|]; [|done]. simpl in Hloaded.
  revert r H. induction loaded as [|e loaded IH]; intros r H; [done|].
  apply Forall_cons in Hloaded as [He Hloaded]. simpl.
  apply IH; [done|]. unfold loadService, initCircuitBreaker.
  eapply entriesOk_same; [reflexivity|].
  unfold entriesOk, getAllServices. simpl. by apply entriesOk_set.
Qed.

Lemma entriesOk_preserved_witness :
  entriesOk trippedRegistry
  ∧ entriesOk (performHealthCheck (ProbeError "timeout"%string) 31000
                 "item-service" trippedRegistry).2
  ∧ entriesOk (healthSweep (λ _, (ProbeOk, 61000)) true trippedRegistry).
Proof.
  assert (entriesOk trippedRegistry) as H0.
  { apply Forall_cons. split; [left; split; reflexivity | apply Forall_nil_2]. }
  split; [exact H0|].
  destruct (entriesOk_preserved trippedRegistry H0)
    as (_ & _ & Hprobe & Hsweep & _).
  split; [apply Hprobe | apply Hsweep].
Defined.

(** X3.  Health probes alone shut a service off.  Take a well-formed
    table and a registered name whose breaker is closed with a count of
    zero and threshold 3.  After three sweeps in each of which the probe
    of that name fails, whatever the other probes do, the entry is
    unhealthy with its [failureCount] raised by three and the last
    error kept, the breaker is open with [lastFailure] at the third
    probe, and every lookup made no later than [timeout] after it
    throws the circuit-open error. *)
Theorem failing_probes_shut_service (name0 : string) (r : ServiceRegistry)
  (service : ServiceEntry) (b : CircuitBreaker)
  (probe1 probe2 probe3 : string → Probe * Z)
  (m1 m2 m3 : string) (t1 t2 t3 : Z) (w1 w2 w3 : bool) :
  tableWf (services r) →
  JsMap.get name0 (services r) = Some service →
  circuitBreakers r !! name0 = Some b →
  state b = closed → failures b = 0 → threshold b = 3 →
  probe1 name0 = (ProbeError m1, t1) →
  probe2 name0 = (ProbeError m2, t2) →
  probe3 name0 = (ProbeError m3, t3) →
  let swept :=
    healthSweep probe3 w3 (healthSweep probe2 w2 (healthSweep probe1 w1 r)) in
  ∃ e' b',
    JsMap.get name0 (services swept) = Some e'
    ∧ status e' = unhealthy
    ∧ failureCount e' = failureCount service + 3
    ∧ lastError e' = Some m3
    ∧ circuitBreakers swept !! name0 = Some b'
    ∧ state b' = open
    ∧ lastFailure b' = t3
    ∧ ∀ now, now - t3 ≤ timeout b →
             getService name0 now swept
             = (Throw (circuitOpenMessage name0), swept).
Proof.
  intros Hwf Hget Hb Hst Hfl Hth Hp1 Hp2 Hp3 swept.
  set (r1 := healthSweep probe1 w1 r).
  set (r2 := healthSweep probe2 w2 r1).
  assert (tableWf (services r1)) as Hwf1 by by apply tableWf_healthSweep.
  assert (tableWf (services r2)) as Hwf2 by by apply tableWf_healthSweep.
  destruct (healthSweep_by_entry probe1 w1 r name0 Hwf) as (Hg1 & Hb1).
  destruct (healthSweep_by_entry probe2 w2 r1 name0 Hwf1) as (Hg2 & Hb2).
  destruct (healthSweep_by_entry probe3 w3 r2 name0 Hwf2) as (Hg3 & Hb3).
  fold r1 in Hg1, Hb1. fold r2 in Hg2, Hb2.
  fold r1 r2 swept in Hg3, Hb3. fold r1 r2 in swept.
  unfold JsMap.has in Hb1, Hb2, Hb3.
  rewrite Hget, Hp1 in Hg1. rewrite Hget, Hb, Hp1 in Hb1. simpl in Hg1, Hb1.
  rewrite Hg1, Hp2 in Hg2. rewrite Hg1, Hb1, Hp2 in Hb2. simpl in Hg2, Hb2.
  rewrite Hg2, Hp3 in Hg3. rewrite Hg2, Hb2, Hp3 in Hb3. simpl in Hg3, Hb3.
  unfold probedBreaker in Hb3. simpl in Hb3.
  destruct (breakerFailures_from_zero [t1; t2; t3] b Hst Hfl)
    as (_ & _ & Hto & _ & Hopen & Hlast).
  change (breakerFailures [t1; t2; t3] b)
    with (breakerFailure t3 (breakerFailure t2 (breakerFailure t1 b)))
    in Hto, Hopen, Hlast.
  do 2 eexists. split; [exact Hg3|].
  split; [done|]. split; [simpl; lia|]. split; [done|].
  split; [exact Hb3|].
  split; [apply Hopen; [done | simpl; lia]|].
  split; [by apply Hlast|].
  intros now Hnow. eapply getService_blocked; [exact Hg3 | exact Hb3 | |].
  - apply Hopen; [done | simpl; lia].
  - rewrite (Hlast t3 eq_refl), Hto. done.
Qed.

Lemma failing_probes_shut_service_witness :
  (tableWf (services itemRegistry)
   ∧ JsMap.get "item-service" (services itemRegistry) = Some itemEntry
   ∧ circuitBreakers itemRegistry !! "item-service"%string
     = Some newCircuitBreaker)
  ∧ ∃ e' b',
      JsMap.get "item-service"
        (services
           (healthSweep (λ _, (ProbeError "down"%string, 91000)) true
              (healthSweep (λ _, (ProbeError "down"%string, 61000)) true
                 (healthSweep (λ _, (ProbeError "down"%string, 31000)) true
                    itemRegistry)))) = Some e'
      ∧ status e' = unhealthy
      ∧ failureCount e' = failureCount itemEntry + 3
      ∧ circuitBreakers
          (healthSweep (λ _, (ProbeError "down"%string, 91000)) true
             (healthSweep (λ _, (ProbeError "down"%string, 61000)) true
                (healthSweep (λ _, (ProbeError "down"%string, 31000)) true
                   itemRegistry))) !! "item-service"%string = Some b'
      ∧ state b' = open.
Proof.
  assert (tableWf (services itemRegistry)) as Hwf.
  { split.
    - apply NoDup_cons. split; [apply not_elem_of_nil | apply NoDup_nil_2].
    - apply Forall_cons. split; [reflexivity | apply Forall_nil_2]. }
  split; [split; [exact Hwf | split; vm_compute; reflexivity]|].
  destruct (failing_probes_shut_service "item-service" itemRegistry
              itemEntry newCircuitBreaker
              (λ _, (ProbeError "down"%string, 31000))
              (λ _, (ProbeError "down"%string, 61000))
              (λ _, (ProbeError "down"%string, 91000))
              "down" "down" "down" 31000 61000 91000 true true true Hwf)
    as (e' & b' & He & Hst & Hfc & _ & Hb & Hopen & _);
    [vm_compute; reflexivity | vm_compute; reflexivity
    | reflexivity | reflexivity | reflexivity
    | reflexivity | reflexivity | reflexivity |].
  exists e', b'. repeat split; assumption.
Defined.
